(** * EMFight: BLE scan orchestration and beacon ingestion

    A shallow embedding of [app.py] (class [EMFightApp]): the advertising
    payload decoder [_decode_name], the radio callback [_irq], the scan
    routine [_do_scan], the teardown [_cleanup_ble], the UI loop [run]
    and the display [draw].

    Python values are modelled as follows.
    - [bytes] / [memoryview]: [list byte].
    - [str]: a list of Unicode code points ([N]); [lit] turns a literal
      into that form.
    - [int] used as an index or a counter: [nat]; a signal strength: [Z].
    - an exception: a kind and its message text; code that may raise
      returns a [result].

    The [print] calls are left out: they change nothing the program
    reads.  Cancellation of the task by its host is not modelled. *)

From Stdlib Require Import List Arith ZArith NArith Lia Bool String Ascii.
From Stdlib.Strings Require Import Byte.
From Stdlib Require Import DecimalString HexadecimalString.
From Stdlib Require Import Sorted.
Import ListNotations.

(** ** Python values *)

Definition char := N.
Definition str := list char.
Definition bytes := list byte.

Definition lit (s : string) : str :=
  map N_of_ascii (list_ascii_of_string s).

Inductive exn_kind := UnicodeError | IndexError | ExternalError.

Record exn := Exn { kind : exn_kind; message : str }.

Inductive result (A : Type) : Type :=
| Ok (a : A)
| Raise (e : exn).

Arguments Ok {A} a.
Arguments Raise {A} e.

(** [len(seq)]. *)
Definition len {A : Type} (l : list A) : nat := List.length l.

(** [seq[i]] for a non-negative [i]: out of range raises [IndexError]. *)
Definition index (adv : bytes) (i : nat) : result nat :=
  match nth_error adv i with
  | Some b => Ok (Byte.to_nat b)
  | None => Raise (Exn IndexError (lit "index out of range"))
  end.

(** [seq[lo:hi]] for non-negative bounds: both ends are clamped to the
    sequence, and an empty range gives the empty sequence. *)
Definition slice {A : Type} (l : list A) (lo hi : nat) : list A :=
  firstn (hi - lo) (skipn lo l).

(** [sep.join(parts)]. *)
Fixpoint join (sep : str) (parts : list str) : str :=
  match parts with
  | [] => []
  | [p] => p
  | p :: rest => p ++ sep ++ join sep rest
  end.

(** ** [bytes.decode("utf-8")]

    UTF-8 as the standard defines it: one to four bytes per code point,
    continuation bytes in [0x80..0xBF], no overlong form, no surrogate,
    nothing above U+10FFFF.  Any violation raises [UnicodeError].
    (MicroPython checks only the shape of the byte sequences; the two
    agree on ASCII text and on bytes that can start no sequence, which
    is all the examples below rely on.) *)

Definition is_cont (b : N) : bool := ((128 <=? b) && (b <? 192))%N.

Definition cont_bits (b : N) : N := N.land b 63.

Definition cp2 (b0 b1 : N) : N :=
  N.lor (N.shiftl (N.land b0 31) 6) (cont_bits b1).

Definition cp3 (b0 b1 b2 : N) : N :=
  N.lor (N.shiftl (N.land b0 15) 12)
        (N.lor (N.shiftl (cont_bits b1) 6) (cont_bits b2)).

Definition cp4 (b0 b1 b2 b3 : N) : N :=
  N.lor (N.shiftl (N.land b0 7) 18)
        (N.lor (N.shiftl (cont_bits b1) 12)
               (N.lor (N.shiftl (cont_bits b2) 6) (cont_bits b3))).

Definition is_surrogate (c : N) : bool := ((55296 <=? c) && (c <=? 57343))%N.

Fixpoint utf8_chars (bs : list N) : option str :=
  match bs with
  | [] => Some []
  | b0 :: r0 =>
      if (b0 <? 128)%N then option_map (cons b0) (utf8_chars r0)
      else if (b0 <? 194)%N then None
      else if (b0 <? 224)%N then
        match r0 with
        | b1 :: r1 =>
            if is_cont b1 then option_map (cons (cp2 b0 b1)) (utf8_chars r1)
            else None
        | _ => None
        end
      else if (b0 <? 240)%N then
        match r0 with
        | b1 :: b2 :: r2 =>
            let c := cp3 b0 b1 b2 in
            if is_cont b1 && is_cont b2 && (2048 <=? c)%N
               && negb (is_surrogate c)
            then option_map (cons c) (utf8_chars r2)
            else None
        | _ => None
        end
      else if (b0 <? 245)%N then
        match r0 with
        | b1 :: b2 :: b3 :: r3 =>
            let c := cp4 b0 b1 b2 b3 in
            if is_cont b1 && is_cont b2 && is_cont b3
               && (65536 <=? c)%N && (c <=? 1114111)%N
            then option_map (cons c) (utf8_chars r3)
            else None
        | _ => None
        end
      else None
  end.

Definition decode_utf8 (bs : bytes) : result str :=
  match utf8_chars (map Byte.to_N bs) with
  | Some s => Ok s
  | None => Raise (Exn UnicodeError [])
  end.

(** ** [_decode_name] (app.py, lines 46-57)

    The [while] loop is unrolled by a fuel counter; [decode_loop] gives
    [None] only when the fuel runs out, which [decode_name_total] below
    shows cannot happen from [S (len adv_data)] units of fuel: every
    turn moves [i] forward by at least two. *)

Fixpoint decode_loop (fuel : nat) (adv_data : bytes) (i : nat)
  : option (result (option str)) :=
  match fuel with
  | O => None
  | S fuel' =>
      if i + 1 <? len adv_data then
        match index adv_data i with
        | Raise e => Some (Raise e)
        | Ok length =>
            if length =? 0 then Some (Ok None)
            else
              match index adv_data (i + 1) with
              | Raise e => Some (Raise e)
              | Ok ad_type =>
                  if ad_type =? 9 then
                    match decode_utf8 (slice adv_data (i + 2) (i + 1 + length)) with
                    | Ok s => Some (Ok (Some s))
                    | Raise e => Some (Raise e)
                    end
                  else decode_loop fuel' adv_data (i + 1 + length)
              end
        end
      else Some (Ok None)
  end.

Definition _decode_name (adv_data : bytes) : result (option str) :=
  match decode_loop (S (len adv_data)) adv_data 0 with
  | Some r => r
  | None => Ok None
  end.

(** ** Formatting *)

(** ["{:x}".format(n)]: lowercase hexadecimal, no padding. *)
Definition format_x (n : nat) : str :=
  lit (HexadecimalString.NilEmpty.string_of_uint (Nat.to_hex_uint n)).

(** Left padding with ['0'] up to a minimal width. *)
Definition zero_pad (width : nat) (s : str) : str :=
  repeat 48%N (width - len s) ++ s.

(** ["{:02x}".format(n)]. *)
Definition format_02x (n : nat) : str := zero_pad 2 (format_x n).

(** [f"{n}"] for a non-negative integer. *)
Definition format_d (n : nat) : str :=
  lit (DecimalString.NilEmpty.string_of_uint (Nat.to_uint n)).

Fixpoint str_eqb (a b : str) : bool :=
  match a, b with
  | [], [] => true
  | x :: a', y :: b' => N.eqb x y && str_eqb a' b'
  | _, _ => false
  end.

(** ** The application object and its surroundings *)

(** One entry of [self.beacons]: a dict with the keys ["name"], ["rssi"]
    and ["addr"]. *)
Record Beacon := { name : str; rssi : Z; addr : str }.

(** What the radio passes to the callback.  [ScanResult] is event code
    [_IRQ_SCAN_RESULT = 5] with its five-field tuple, [ScanDone] is
    [_IRQ_SCAN_DONE = 6], [OtherEvent] is any other code. *)
Inductive irq_event :=
| ScanResult (addr_type : Z) (addr : bytes) (adv_type : Z) (rssi : Z)
             (adv_data : bytes)
| ScanDone
| OtherEvent (code : nat).

(** Calls that leave the application: the garbage collector, the module
    import and the radio driver.  Any of them may raise. *)
Inductive command :=
| ImportGc | GcCollect | GcMemFree | ImportBluetooth | NewBLE | QueryActive
| SetIrq | Activate | GapScan | StopScan | Deactivate.

(** Observable effects, most recent last.  [Called c None] is a call that
    returned, [Called c (Some m)] one that raised with message [m];
    [Slept ms] is one [await asyncio.sleep]. *)
Inductive effect :=
| Called (c : command) (failure : option str)
| Slept (ms : nat)
| ButtonsCleared
| Minimised
| Rendered.

Inductive handle := BLE.

Record Buttons := { UP : bool; DOWN : bool; CANCEL : bool }.

(** The fields of [EMFightApp], then the part of the world the model
    tracks: whether the radio is active and the effects so far. *)
Record App := {
  button_states : Buttons;
  beacons : list Beacon;
  status : str;
  scan_requested : bool;
  scan_complete : bool;
  _ble : option handle;
  radio_active : bool;
  trace : list effect
}.

(** The state [__init__] sets up, with the radio inactive. *)
Definition __init__ : App :=
  {| button_states := {| UP := false; DOWN := false; CANCEL := false |};
     beacons := [];
     status := lit "Press A to scan";
     scan_requested := false;
     scan_complete := false;
     _ble := None;
     radio_active := false;
     trace := [] |}.

(** How the surroundings behave during one scan attempt: which calls
    raise (and with what text), and which events the radio delivers to
    the callback during the [k]-th suspension of the wait loop.  The
    radio reports only on a scan it has accepted, so the callback runs at
    the suspension points that follow a successful [gap_scan]. *)
Record Env := {
  fails : command -> option str;
  polls : nat -> list irq_event
}.

(** ** A state and exception monad

    A computation takes the application state and gives a result and the
    state it left behind; assignments made before a [raise] persist. *)

Definition M (A : Type) : Type := App -> result A * App.

Definition ret {A : Type} (a : A) : M A := fun s => (Ok a, s).

Definition bind {A B : Type} (c : M A) (k : A -> M B) : M B :=
  fun s =>
    match c s with
    | (Ok a, s') => k a s'
    | (Raise e, s') => (Raise e, s')
    end.

Definition lift {A : Type} (r : result A) : M A := fun s => (r, s).

Definition get : M App := fun s => (Ok s, s).

Definition modify (f : App -> App) : M unit := fun s => (Ok tt, f s).

(** [try: body except Exception as e: handler e]. *)
Definition try_except {A : Type} (body : M A) (handler : exn -> M A) : M A :=
  fun s =>
    match body s with
    | (Ok a, s') => (Ok a, s')
    | (Raise e, s') => handler e s'
    end.

Declare Scope py_scope.
Delimit Scope py_scope with py.
Notation "x <- c ;; k" := (bind c (fun x => k))
  (at level 61, c at next level, right associativity) : py_scope.
Notation "c ;; k" := (bind c (fun _ => k))
  (at level 61, right associativity) : py_scope.
Local Open Scope py_scope.

(** Field assignments. *)
Definition set_button_states (v : Buttons) (s : App) : App :=
  {| button_states := v; beacons := beacons s; status := status s;
     scan_requested := scan_requested s; scan_complete := scan_complete s;
     _ble := _ble s; radio_active := radio_active s; trace := trace s |}.

Definition set_beacons (v : list Beacon) (s : App) : App :=
  {| button_states := button_states s; beacons := v; status := status s;
     scan_requested := scan_requested s; scan_complete := scan_complete s;
     _ble := _ble s; radio_active := radio_active s; trace := trace s |}.

Definition set_status (v : str) (s : App) : App :=
  {| button_states := button_states s; beacons := beacons s; status := v;
     scan_requested := scan_requested s; scan_complete := scan_complete s;
     _ble := _ble s; radio_active := radio_active s; trace := trace s |}.

Definition set_scan_requested (v : bool) (s : App) : App :=
  {| button_states := button_states s; beacons := beacons s;
     status := status s; scan_requested := v;
     scan_complete := scan_complete s;
     _ble := _ble s; radio_active := radio_active s; trace := trace s |}.

Definition set_scan_complete (v : bool) (s : App) : App :=
  {| button_states := button_states s; beacons := beacons s;
     status := status s; scan_requested := scan_requested s;
     scan_complete := v;
     _ble := _ble s; radio_active := radio_active s; trace := trace s |}.

Definition set_ble (v : option handle) (s : App) : App :=
  {| button_states := button_states s; beacons := beacons s;
     status := status s; scan_requested := scan_requested s;
     scan_complete := scan_complete s;
     _ble := v; radio_active := radio_active s; trace := trace s |}.

Definition set_radio_active (v : bool) (s : App) : App :=
  {| button_states := button_states s; beacons := beacons s;
     status := status s; scan_requested := scan_requested s;
     scan_complete := scan_complete s;
     _ble := _ble s; radio_active := v; trace := trace s |}.

Definition log (e : effect) (s : App) : App :=
  {| button_states := button_states s; beacons := beacons s;
     status := status s; scan_requested := scan_requested s;
     scan_complete := scan_complete s;
     _ble := _ble s; radio_active := radio_active s;
     trace := trace s ++ [e] |}.

(** One call that leaves the application. *)
Definition call (env : Env) (c : command) : M unit :=
  fun s =>
    match fails env c with
    | None => (Ok tt, log (Called c None) s)
    | Some m => (Raise (Exn ExternalError m), log (Called c (Some m)) s)
    end.

(** [str(e)]. *)
Definition str_of_exn (e : exn) : str := message e.

(** ** [_irq] (app.py, lines 23-44) *)

(** [x or "?"] for [x] either [None] or a string. *)
Definition or_default (x : option str) (d : str) : str :=
  match x with
  | Some (c :: s) => c :: s
  | _ => d
  end.

(** [any(b["addr"] == addr_str for b in self.beacons)]. *)
Definition known (addr_str : str) (bs : list Beacon) : bool :=
  existsb (fun b => str_eqb (addr b) addr_str) bs.

(** Lines 32-37: the guarded append. *)
Definition upsert (addr_str name : str) (rssi : Z) : M unit :=
  s <- get ;;
  if negb (known addr_str (beacons s)) then
    modify (fun s =>
      set_beacons
        (beacons s ++ [ {| name := name; rssi := rssi; addr := addr_str |} ])
        s)
  else ret tt.

(** [":".join("{:02x}".format(b) for b in bytes(addr))]. *)
Definition format_addr (addr : bytes) : str :=
  join (lit ":") (map (fun b => format_02x (Byte.to_nat b)) addr).

(** The [try] block for one advertisement (lines 28-38). *)
Definition irq_scan_result (addr : bytes) (rssi : Z) (adv_data : bytes)
  : M unit :=
  decoded <- lift (_decode_name adv_data) ;;
  let name := or_default decoded (lit "?") in
  let addr_str := format_addr addr in
  upsert addr_str name rssi.

Definition _irq (event : irq_event) : M unit :=
  match event with
  | ScanResult addr_type addr adv_type rssi adv_data =>
      try_except
        (irq_scan_result addr rssi adv_data)
        (fun e => ret tt)
  | ScanDone => modify (set_scan_complete true)
  | OtherEvent _ => ret tt
  end.

(** The driver runs the callback for each event in turn; whatever the
    callback returns or raises stays with the driver. *)
Definition deliver (events : list irq_event) (s : App) : App :=
  fold_left (fun s ev => snd (_irq ev s)) events s.

(** [await asyncio.sleep(...)]: the task is suspended, and the callback
    runs for the events that arrive meanwhile. *)
Definition sleep (ms : nat) (events : list irq_event) : M unit :=
  modify (fun s => deliver events (log (Slept ms) s)).

(** ** [_do_scan] (app.py, lines 83-128) *)

(** [self._ble.active()]. *)
Definition query_active (env : Env) : M bool :=
  call env QueryActive ;;
  s <- get ;;
  ret (radio_active s).

(** Lines 118-121: [while not self.scan_complete and timeout > 0].
    [timeout] counts down from 30; [k] numbers the suspensions. *)
Fixpoint wait_loop (env : Env) (timeout k : nat) : M unit :=
  match timeout with
  | O => ret tt
  | S timeout' =>
      s <- get ;;
      if negb (scan_complete s) then
        sleep 100 (polls env k) ;;
        wait_loop env timeout' (S k)
      else ret tt
  end.

(** The [try] block, lines 91-124.  The settle delay after activation
    is a suspension during which no scan is in progress, hence without
    events. *)
Definition scan_body (env : Env) : M unit :=
  call env ImportGc ;;
  call env GcCollect ;;
  call env GcMemFree ;;
  call env ImportBluetooth ;;
  s <- get ;;
  (match _ble s with
   | None => call env NewBLE ;; modify (set_ble (Some BLE))
   | Some _ => ret tt
   end) ;;
  _ <- query_active env ;;
  active <- query_active env ;;
  (if negb active then
     call env SetIrq ;;
     call env Activate ;;
     modify (set_radio_active true) ;;
     sleep 300 []
   else ret tt) ;;
  modify (set_status (lit "Scanning...")) ;;
  call env GapScan ;;
  wait_loop env 30 0 ;;
  s <- get ;;
  modify (set_status (lit "Found " ++ format_d (len (beacons s)))).

Definition _do_scan (env : Env) : M unit :=
  modify (set_status (lit "Init...")) ;;
  modify (set_beacons []) ;;
  modify (set_scan_complete false) ;;
  try_except
    (scan_body env)
    (fun e =>
       modify (set_status (lit "Err: " ++ firstn 15 (str_of_exn e)))).

(** ** [_cleanup_ble] (app.py, lines 130-138) *)

Definition _cleanup_ble (env : Env) : M unit :=
  s <- get ;;
  match _ble s with
  | Some _ =>
      try_except
        (call env StopScan ;;
         call env Deactivate ;;
         modify (set_radio_active false))
        (fun _ => ret tt)
  | None => ret tt
  end.

(** ** [run] (app.py, lines 59-81) *)

Inductive control := Exit | Continue.

(** [self.button_states.clear()]. *)
Definition clear_buttons : M unit :=
  modify (fun s =>
    log ButtonsCleared
        (set_button_states
           {| UP := false; DOWN := false; CANCEL := false |} s)).

(** One turn of the [while True] loop. *)
Definition run_iter (env : Env) : M control :=
  s <- get ;;
  if CANCEL (button_states s) then
    clear_buttons ;;
    _cleanup_ble env ;;
    modify (log Minimised) ;;
    ret Exit
  else
    s <- get ;;
    (if UP (button_states s) then
       clear_buttons ;;
       modify (set_scan_requested true)
     else ret tt) ;;
    s <- get ;;
    (if DOWN (button_states s) then
       clear_buttons ;;
       modify (set_beacons []) ;;
       modify (set_status (lit "Cleared"))
     else ret tt) ;;
    s <- get ;;
    (if scan_requested s then
       modify (set_scan_requested false) ;;
       _do_scan env
     else ret tt) ;;
    modify (log Rendered) ;;
    ret Continue.

(** Buttons pressed since the previous turn are added to those still
    pending. *)
Definition press (b : Buttons) : M unit :=
  modify (fun s =>
    set_button_states
      {| UP := UP (button_states s) || UP b;
         DOWN := DOWN (button_states s) || DOWN b;
         CANCEL := CANCEL (button_states s) || CANCEL b |} s).

(** The loop over a finite run of turns, each with the buttons pressed
    before it and the behaviour of the surroundings during it.  The
    result tells whether the loop has returned. *)
Fixpoint run (turns : list (Buttons * Env)) : M bool :=
  match turns with
  | [] => ret false
  | (pressed, env) :: rest =>
      press pressed ;;
      c <- run_iter env ;;
      match c with
      | Exit => ret true
      | Continue => run rest
      end
  end.

(** ** Vocabulary of the statements *)

(** [decode_from adv i] is the scan resumed at offset [i]. *)
Definition decode_from (adv : bytes) (i : nat) : result (option str) :=
  match decode_loop (S (len adv)) adv i with
  | Some r => r
  | None => Ok None
  end.

(** The offsets at which the scan reads a record header: offset 0, and
    the offset after every record of non-zero length whose type tag is
    not 0x09. *)
Inductive reaches (adv : bytes) : nat -> Prop :=
| reaches_start : reaches adv 0
| reaches_next i l t :
    reaches adv i ->
    nth_error adv i = Some l ->
    nth_error adv (i + 1) = Some t ->
    Byte.to_nat l <> 0 ->
    Byte.to_nat t <> 9 ->
    reaches adv (i + 1 + Byte.to_nat l).

(** The scan runs out of records before it meets a name record: at some
    offset it reaches, fewer than two bytes are left or the length byte
    is zero. *)
Definition ends_without_name (adv : bytes) : Prop :=
  exists i, reaches adv i /\
            (len adv <= i + 1 \/ nth_error adv i = Some x00).

(** Fuel is adequate at offset [i] when it is positive and exceeds what
    is left of the buffer. *)
Definition enough (fuel : nat) (adv : bytes) (i : nat) : Prop :=
  0 < fuel /\ len adv < fuel + i.

(** The canonical form of an address: two lowercase hexadecimal digits
    per byte, high nibble first, and a colon between neighbours. *)
Definition hex_digit (d : nat) : char := nth d (lit "0123456789abcdef") 0%N.

Definition two_hex (b : byte) : str :=
  [hex_digit (Byte.to_nat b / 16); hex_digit (Byte.to_nat b mod 16)].

Fixpoint canonical (a : bytes) : str :=
  match a with
  | [] => []
  | b :: rest =>
      two_hex b ++ match rest with
                   | [] => []
                   | _ => 58%N :: canonical rest
                   end
  end.

(** The value of a hexadecimal digit (16 for any other character). *)
Definition hex_value (c : char) : nat :=
  match find (fun d => N.eqb (hex_digit d) c) (seq 0 16) with
  | Some d => d
  | None => 16
  end.

(** One call of the guarded append: address text, name, strength. *)
Definition sighting : Type := str * str * Z.

Definition sighting_addr (c : sighting) : str := fst (fst c).

Fixpoint upsert_all (calls : list sighting) : M unit :=
  match calls with
  | [] => ret tt
  | c :: rest =>
      upsert (sighting_addr c) (snd (fst c)) (snd c) ;;
      upsert_all rest
  end.

Definition str_eq_dec : forall a b : str, {a = b} + {a <> b} :=
  list_eq_dec N.eq_dec.

(** A list without its repetitions, each element kept where it first
    occurs. *)
Definition first_occurrences (l : list str) : list str :=
  rev (nodup str_eq_dec (rev l)).

Definition is_done (ev : irq_event) : bool :=
  match ev with ScanDone => true | _ => false end.

Definition is_result (ev : irq_event) : bool :=
  match ev with ScanResult _ _ _ _ _ => true | _ => false end.

(** The events delivered during suspensions [k], ..., [k + n - 1]. *)
Definition batches (env : Env) (k n : nat) : list irq_event :=
  List.concat (map (polls env) (seq k n)).

Definition logs (es : list effect) (s : App) : App :=
  fold_left (fun s e => log e s) es s.

(** The calls a scan attempt can make: all but the two of the
    teardown. *)
Definition scan_call (c : command) : bool :=
  match c with
  | StopScan | Deactivate => false
  | _ => true
  end.

(** Every call made during a scan attempt returns: the radio is created,
    activated, and accepts the scan command. *)
Definition radio_ok (env : Env) : Prop :=
  forall c, scan_call c = true -> fails env c = None.

Definition is_failure (e : effect) : bool :=
  match e with Called _ (Some _) => true | _ => false end.

(** Effects that may precede the scan command within one attempt: calls
    that returned, and the settle delay. *)
Definition is_prelude (e : effect) : bool :=
  match e with
  | Called _ None => true
  | Slept ms => ms =? 300
  | _ => false
  end.

(** ** Sample surroundings *)

(** Every call returns and the radio stays silent. *)
Definition quiet_env : Env :=
  {| fails := fun _ => None; polls := fun _ => [] |}.

Definition addr_A : bytes := [x01; xab; x03; x04; x05; x06].
Definition addr_B : bytes := [x01; xab; x03; x04; x05; x07].

(** Advertisements from A, B and A again, then the end of the scan,
    spread over the first suspensions of the wait loop. *)
Definition demo_env : Env :=
  {| fails := fun _ => None;
     polls := fun k =>
       match k with
       | 0 => [ScanResult 0 addr_A 0 (-40) [x02; x01; x06; x02; x09; x41]]
       | 1 => [ScanResult 0 addr_B 0 (-50) [x02; x09; x42];
               ScanResult 0 addr_A 0 (-70) [x03; x09; x41; x32]]
       | 3 => [ScanDone]
       | _ => []
       end |}.

(** Activation of the radio raises. *)
Definition failing_env : Env :=
  {| fails := fun c =>
       match c with
       | Activate => Some (lit "BLE stack could not be started")
       | _ => None
       end;
     polls := fun _ => [] |}.

(** A state left by an earlier scan: one beacon, the completion flag
    still set, the radio active. *)
Definition after_earlier_scan : App :=
  {| button_states := {| UP := false; DOWN := false; CANCEL := false |};
     beacons := [ {| name := lit "old"; rssi := (-80)%Z;
                     addr := lit "0a:0b" |} ];
     status := lit "Found 1";
     scan_requested := false;
     scan_complete := true;
     _ble := Some BLE;
     radio_active := true;
     trace := [] |}.

(** The same after a teardown: the radio is inactive again. *)
Definition after_teardown : App := set_radio_active false after_earlier_scan.

Definition cancel_pressed : Buttons :=
  {| UP := false; DOWN := false; CANCEL := true |}.

Definition up_pressed : Buttons :=
  {| UP := true; DOWN := false; CANCEL := false |}.

(** Both teardown calls raise. *)
Definition stuck_env : Env :=
  {| fails := fun c =>
       match c with
       | StopScan | Deactivate => Some (lit "radio busy")
       | _ => None
       end;
     polls := fun _ => [] |}.

(** ** [draw] (app.py, lines 140-167)

    The drawing context is outside the program; [draw] is modelled by
    the operations it performs on it, in order.  Colour components are
    in tenths: the literals 1, 0.8, 0.7, 0.5 and 0.2 are 10, 8, 7, 5
    and 2. *)

Inductive ctx_op :=
| ClearBackground
| CtxSave
| CtxRestore
| CtxRgb (r g b : nat)
| SetFontSize (n : nat)
| SetTextAlignCenter
| MoveTo (x y : Z)
| Text (t : str).

(** [f"{n}"] for a signed integer. *)
Definition format_int (z : Z) : str :=
  lit (DecimalString.NilZero.string_of_int (Z.to_int z)).

(** Lines 157-161: the loop over [self.beacons[:5]], with [y_pos]. *)
Fixpoint draw_rows (bs : list Beacon) (y_pos : Z) : list ctx_op :=
  match bs with
  | [] => []
  | beacon :: rest =>
      let name := slice (name beacon) 0 8 in
      let rssi := rssi beacon in
      [MoveTo 0 y_pos; Text (name ++ lit " " ++ format_int rssi)]
      ++ draw_rows rest (y_pos + 20)
  end.

Definition draw (s : App) : list ctx_op :=
  [ClearBackground; CtxSave;
   CtxRgb 10 10 10; SetFontSize 18; SetTextAlignCenter;
   MoveTo 0 (-100); Text (lit "EMFight");
   SetFontSize 14; CtxRgb 8 8 2;
   MoveTo 0 (-75); Text (status s);
   SetFontSize 11; CtxRgb 7 7 7]
  ++ draw_rows (slice (beacons s) 0 5) (-45)
  ++ [SetFontSize 11; CtxRgb 5 5 5;
      MoveTo 0 90; Text (lit "A:Scan D:Clear F:Exit");
      CtxRestore].

(** ** Further vocabulary *)

(** The texts a list of operations puts on the screen, each with the
    position set just before it. *)
Fixpoint placed_texts (ops : list ctx_op) : list (Z * Z * str) :=
  match ops with
  | [] => []
  | MoveTo x y :: rest =>
      match rest with
      | Text t :: rest' => (x, y, t) :: placed_texts rest'
      | _ => placed_texts rest
      end
  | _ :: rest => placed_texts rest
  end.

(** The discovery events of a list, as address text and strength. *)
Fixpoint sightings_of (evs : list irq_event) : list (str * Z) :=
  match evs with
  | [] => []
  | ScanResult _ a _ r _ :: rest => (format_addr a, r) :: sightings_of rest
  | _ :: rest => sightings_of rest
  end.

(** What may come directly before an effect of a scan attempt: the
    handle is created right after the import, the callback is
    registered right after the radio was seen inactive, the radio is
    activated right after the callback was registered, the settle delay
    follows a successful activation, and the scan command follows the
    settle delay or the sight of an active radio. *)
Definition follows_ok (prev : option effect) (e : effect) : bool :=
  match e, prev with
  | Called NewBLE _, Some (Called ImportBluetooth None) => true
  | Called NewBLE _, _ => false
  | Called SetIrq _, Some (Called QueryActive None) => true
  | Called SetIrq _, _ => false
  | Called Activate _, Some (Called SetIrq None) => true
  | Called Activate _, _ => false
  | Slept 300, Some (Called Activate None) => true
  | Slept 300, _ => false
  | Called GapScan _, Some (Slept 300) => true
  | Called GapScan _, Some (Called QueryActive None) => true
  | Called GapScan _, _ => false
  | _, _ => true
  end.

Fixpoint order_ok (prev : option effect) (l : list effect) : bool :=
  match l with
  | [] => true
  | e :: rest => follows_ok prev e && order_ok (Some e) rest
  end.

(** The effect before position [i] of a list, if any. *)
Definition before (l : list effect) (i : nat) : option effect :=
  match i with
  | O => None
  | S j => nth_error l j
  end.

Definition is_activation (e : effect) : bool :=
  match e with
  | Called SetIrq _ | Called Activate _ | Slept 300 => true
  | _ => false
  end.

Definition is_creation (e : effect) : bool :=
  match e with Called NewBLE _ => true | _ => false end.

Definition is_scan_command (e : effect) : bool :=
  match e with Called GapScan _ => true | _ => false end.

Definition is_registered (e : effect) : bool :=
  match e with Called SetIrq None => true | _ => false end.

Definition is_settle (e : effect) : bool :=
  match e with Slept ms => ms =? 300 | _ => false end.

Definition is_activated (e : effect) : bool :=
  match e with Called Activate None => true | _ => false end.

Definition is_radio_call (e : effect) : bool :=
  match e with Called _ _ => true | _ => false end.

(** A name record cut short after ["Ta"]: it announces seven payload
    bytes, two are present. *)
Definition cut_short_payload : bytes :=
  [x02; x01; x06; x08; x09; x54; x61].

Definition down_pressed : Buttons :=
  {| UP := false; DOWN := true; CANCEL := false |}.

Definition up_down_pressed : Buttons :=
  {| UP := true; DOWN := true; CANCEL := false |}.

(** A registry of seven beacons, for the display. *)
Definition seven_beacons : list Beacon :=
  map (fun k => {| name := lit "Thermometer-" ++ format_d k;
                   rssi := (- Z.of_nat (40 + k))%Z;
                   addr := format_addr [x00; x00; x00; x00; x00; x00] ++ format_d k |})
      (seq 0 7).

(** The buttons with nothing pressed. *)
Definition no_buttons : Buttons :=
  {| UP := false; DOWN := false; CANCEL := false |}.

(** The state in which a turn of the loop that does not exit leaves the
    application, before the frame is rendered. *)
Definition after_up (s : App) : App :=
  if UP (button_states s)
  then set_scan_requested true (snd (clear_buttons s))
  else s.

Definition after_down (s : App) : App :=
  if DOWN (button_states s)
  then set_status (lit "Cleared") (set_beacons [] (snd (clear_buttons s)))
  else s.

Definition after_request (env : Env) (s : App) : App :=
  if scan_requested s
  then snd (_do_scan env (set_scan_requested false s))
  else s.

(** The text of one row of the display. *)
Definition row_text (b : Beacon) : str :=
  firstn 8 (name b) ++ lit " " ++ format_int (rssi b).

Fixpoint rows_at (bs : list Beacon) (y : Z) : list (Z * Z * str) :=
  match bs with
  | [] => []
  | b :: rest => (0%Z, y, row_text b) :: rows_at rest (y + 20)
  end.

(** The height at which a text is placed. *)
Definition height (p : Z * Z * str) : Z := snd (fst p).

(** * Proofs *)

(** ** The decoder *)

Lemma index_some adv i b :
  nth_error adv i = Some b -> index adv i = Ok (Byte.to_nat b).
Proof. unfold index. now intros ->. Qed.

Lemma index_in_range (adv : bytes) i :
  i < len adv -> exists b, nth_error adv i = Some b.
Proof.
  intros H. destruct (nth_error adv i) eqn:E; eauto.
  apply nth_error_None in E. unfold len in H. lia.
Qed.

Lemma decode_loop_fuel fuel adv i :
  enough fuel adv i -> decode_loop fuel adv i <> None.
Proof.
  revert i. induction fuel as [|f IH]; intros i [Hpos Hlen]; [lia|].
  cbn [decode_loop].
  destruct (i + 1 <? len adv) eqn:G; [|discriminate].
  apply Nat.ltb_lt in G.
  destruct (index adv i) as [l|e]; [|discriminate].
  destruct (l =? 0); [discriminate|].
  destruct (index adv (i + 1)) as [t|e]; [|discriminate].
  destruct (t =? 9).
  - destruct (decode_utf8 _); discriminate.
  - apply IH. unfold enough. lia.
Qed.

Lemma decode_loop_fuel_irrelevant f1 : forall f2 adv i,
  enough f1 adv i -> enough f2 adv i ->
  decode_loop f1 adv i = decode_loop f2 adv i.
Proof.
  induction f1 as [|f1 IH]; intros f2 adv i [P1 L1] [P2 L2]; [lia|].
  destruct f2 as [|f2]; [lia|].
  cbn [decode_loop].
  destruct (i + 1 <? len adv) eqn:G; [|reflexivity].
  apply Nat.ltb_lt in G.
  destruct (index adv i) as [l|e]; [|reflexivity].
  destruct (l =? 0); [reflexivity|].
  destruct (index adv (i + 1)) as [t|e]; [|reflexivity].
  destruct (t =? 9); [reflexivity|].
  apply IH; unfold enough; lia.
Qed.

(** [_decode_name] never runs out of fuel. *)
Lemma decode_name_total adv :
  exists r, decode_loop (S (len adv)) adv 0 = Some r /\ _decode_name adv = r.
Proof.
  unfold _decode_name.
  destruct (decode_loop (S (len adv)) adv 0) as [r|] eqn:E; eauto.
  exfalso. revert E. apply decode_loop_fuel. unfold enough. lia.
Qed.

Lemma decode_name_from adv : _decode_name adv = decode_from adv 0.
Proof. reflexivity. Qed.

(** One turn of the loop, without fuel. *)
Lemma decode_from_step adv i :
  decode_from adv i =
  if i + 1 <? len adv then
    match index adv i with
    | Raise e => Raise e
    | Ok length =>
        if length =? 0 then Ok None
        else
          match index adv (i + 1) with
          | Raise e => Raise e
          | Ok ad_type =>
              if ad_type =? 9 then
                match decode_utf8 (slice adv (i + 2) (i + 1 + length)) with
                | Ok s => Ok (Some s)
                | Raise e => Raise e
                end
              else decode_from adv (i + 1 + length)
          end
    end
  else Ok None.
Proof.
  unfold decode_from at 1. cbn [decode_loop].
  destruct (i + 1 <? len adv) eqn:G; [|reflexivity].
  apply Nat.ltb_lt in G.
  destruct (index adv i) as [l|e]; [|reflexivity].
  destruct (l =? 0); [reflexivity|].
  destruct (index adv (i + 1)) as [t|e]; [|reflexivity].
  destruct (t =? 9); [destruct (decode_utf8 _); reflexivity|].
  unfold decode_from.
  rewrite (@decode_loop_fuel_irrelevant (len adv) (S (len adv)) adv (i + 1 + l));
    unfold enough; try lia.
  reflexivity.
Qed.

Lemma decode_from_skip adv i l t :
  nth_error adv i = Some l ->
  nth_error adv (i + 1) = Some t ->
  Byte.to_nat l <> 0 ->
  Byte.to_nat t <> 9 ->
  decode_from adv i = decode_from adv (i + 1 + Byte.to_nat l).
Proof.
  intros Hl Ht Hl0 Ht9. rewrite decode_from_step.
  assert (G : i + 1 < len adv).
  { unfold len. apply nth_error_Some. congruence. }
  apply Nat.ltb_lt in G. rewrite G.
  rewrite (index_some _ _ _ Hl), (index_some _ _ _ Ht).
  apply Nat.eqb_neq in Hl0, Ht9. now rewrite Hl0, Ht9.
Qed.

Lemma decode_from_reaches adv i :
  reaches adv i -> _decode_name adv = decode_from adv i.
Proof.
  induction 1 as [|i l t _ IH Hl Ht Hl0 Ht9]; [reflexivity|].
  rewrite IH. now apply decode_from_skip with (t := t).
Qed.

Lemma decode_from_end adv i :
  len adv <= i + 1 \/ nth_error adv i = Some x00 ->
  decode_from adv i = Ok None.
Proof.
  intros H. rewrite decode_from_step.
  destruct (i + 1 <? len adv) eqn:G; [|reflexivity].
  apply Nat.ltb_lt in G. destruct H as [H|H]; [lia|].
  now rewrite (index_some _ _ _ H).
Qed.

Lemma slice_middle {A : Type} (pre mid post : list A) (h1 h2 : A) n :
  n = S (len mid) ->
  slice (pre ++ h1 :: h2 :: mid ++ post) (len pre + 2) (len pre + 1 + n) = mid.
Proof.
  intros ->. unfold slice, len.
  replace (List.length pre + 1 + S (List.length mid) - (List.length pre + 2)) with (List.length mid) by lia.
  replace (pre ++ h1 :: h2 :: mid ++ post) with ((pre ++ [h1; h2]) ++ mid ++ post)
    by (rewrite <- app_assoc; reflexivity).
  rewrite skipn_app.
  rewrite skipn_all2 by (rewrite length_app; simpl; lia).
  rewrite length_app. cbn [List.length].
  replace (List.length pre + 2 - (List.length pre + 2)) with 0 by lia.
  simpl. rewrite firstn_app, firstn_all, Nat.sub_diag. simpl.
  now rewrite app_nil_r.
Qed.

(** C1 (amended): a payload in which the scan reaches a record with type
    tag 0x09 whose [L-1] payload bytes lie wholly inside the buffer and
    are valid UTF-8 decodes to exactly the text of those bytes. *)
Theorem decode_name_well_formed_record
        (pre payload post : bytes) (l : byte) (text : str) :
  reaches (pre ++ l :: x09 :: payload ++ post) (len pre) ->
  Byte.to_nat l = S (len payload) ->
  decode_utf8 payload = Ok text ->
  _decode_name (pre ++ l :: x09 :: payload ++ post) = Ok (Some text).
Proof.
  intros Hreach Hl Hutf.
  set (adv := pre ++ l :: x09 :: payload ++ post) in *.
  rewrite (decode_from_reaches _ _ Hreach), decode_from_step.
  assert (G : len pre + 1 < len adv).
  { unfold adv, len. rewrite length_app. simpl. lia. }
  apply Nat.ltb_lt in G. rewrite G.
  assert (H0 : nth_error adv (len pre) = Some l).
  { unfold adv, len. rewrite nth_error_app2, Nat.sub_diag by lia. reflexivity. }
  assert (H1 : nth_error adv (len pre + 1) = Some x09).
  { unfold adv, len. rewrite nth_error_app2 by lia.
    replace (List.length pre + 1 - List.length pre) with 1 by lia. reflexivity. }
  rewrite (index_some _ _ _ H0), (index_some _ _ _ H1), Hl.
  cbn [Nat.eqb Byte.to_nat].
  change (Byte.to_nat x09 =? 9) with true. cbv iota.
  unfold adv. rewrite slice_middle by reflexivity.
  now rewrite Hutf.
Qed.

Lemma decode_name_well_formed_record_witness :
  _decode_name ([x02; x01; x06] ++ x03 :: x09 :: [x41; x42] ++ [])
  = Ok (Some (lit "AB")).
Proof.
  apply decode_name_well_formed_record.
  - change (len [x02; x01; x06]) with (0 + 1 + Byte.to_nat x02).
    apply reaches_next with (t := x01).
    + apply reaches_start.
    + reflexivity.
    + reflexivity.
    + discriminate.
    + discriminate.
  - reflexivity.
  - reflexivity.
Defined.

(** A record of type 0x09 that is well formed as a record, but whose
    payload byte 0xFF is not UTF-8: decoding raises. *)
Lemma decode_name_invalid_utf8 :
  reaches ([] ++ x02 :: x09 :: [xff] ++ []) (len (@nil byte)) /\
  Byte.to_nat x02 = S (len [xff]) /\
  _decode_name ([] ++ x02 :: x09 :: [xff] ++ []) = Raise (Exn UnicodeError []).
Proof.
  split; [apply reaches_start|]. split; reflexivity.
Qed.

(** C2 (amended): when the scan runs out of records before it meets a
    type tag 0x09 - the buffer ends, a record other than a name record is
    cut short, or a record has length zero - the result is absence, and
    nothing is raised. *)
Theorem decode_name_absent (adv : bytes) :
  ends_without_name adv -> _decode_name adv = Ok None.
Proof.
  intros (i & Hreach & Hend).
  rewrite (decode_from_reaches _ _ Hreach).
  now apply decode_from_end.
Qed.

Lemma decode_name_absent_witness :
  _decode_name [x02; x01; x06; x05; xff; x41] = Ok None.
Proof.
  apply decode_name_absent.
  exists 9. split.
  - change 9 with (3 + 1 + Byte.to_nat x05).
    apply reaches_next with (t := xff).
    + change 3 with (0 + 1 + Byte.to_nat x02).
      apply reaches_next with (t := x01).
      * apply reaches_start.
      * reflexivity.
      * reflexivity.
      * discriminate.
      * discriminate.
    + reflexivity.
    + reflexivity.
    + discriminate.
    + discriminate.
  - left. vm_compute. lia.
Defined.

(** Absence is returned in no other case. *)
Lemma decode_name_absent_only_if (adv : bytes) :
  _decode_name adv = Ok None -> ends_without_name adv.
Proof.
  intros H. rewrite decode_name_from in H.
  assert (G : forall fuel i, reaches adv i -> len adv < fuel + i ->
              decode_from adv i = Ok None -> ends_without_name adv).
  { induction fuel as [|f IH]; intros i Hr Hf Hd.
    - exists i. split; [assumption|]. left. lia.
    - rewrite decode_from_step in Hd.
      destruct (i + 1 <? len adv) eqn:G.
      + apply Nat.ltb_lt in G.
        destruct (index_in_range adv i) as [l Hl]; [lia|].
        destruct (index_in_range adv (i + 1)) as [t Ht]; [lia|].
        rewrite (index_some _ _ _ Hl), (index_some _ _ _ Ht) in Hd.
        destruct (Byte.to_nat l =? 0) eqn:L0.
        * exists i. split; [assumption|]. right.
          apply Nat.eqb_eq in L0. rewrite Hl. f_equal.
          destruct l; try discriminate L0; reflexivity.
        * destruct (Byte.to_nat t =? 9) eqn:T9.
          -- destruct (decode_utf8 _); discriminate.
          -- apply Nat.eqb_neq in L0, T9.
             apply (IH (i + 1 + Byte.to_nat l)); [|lia|assumption].
             now apply reaches_next with (t := t).
      + apply Nat.ltb_ge in G. exists i. split; [assumption|]. now left. }
  apply (G (S (len adv)) 0); [apply reaches_start|lia|assumption].
Qed.

(** A name record cut short by the end of the buffer is not treated as
    malformed: the bytes that are present are decoded.  Here the record
    announces four payload bytes and one is present. *)
Lemma decode_name_truncated_name_record :
  reaches [x05; x09; x41] 0 /\
  len [x05; x09; x41] < 0 + 1 + Byte.to_nat x05 /\
  _decode_name [x05; x09; x41] = Ok (Some (lit "A")).
Proof.
  split; [apply reaches_start|]. split; [vm_compute; lia|reflexivity].
Qed.

(** ** Text *)

Lemma str_eqb_eq a : forall b, str_eqb a b = true <-> a = b.
Proof.
  induction a as [|x a IH]; intros [|y b]; simpl; split;
    try congruence; try discriminate.
  - intros H. apply andb_true_iff in H as [H1 H2].
    apply N.eqb_eq in H1. apply IH in H2. congruence.
  - intros H. injection H as -> ->. rewrite N.eqb_refl. simpl. now apply IH.
Qed.

Lemma str_eqb_refl a : str_eqb a a = true.
Proof. now apply str_eqb_eq. Qed.

Lemma str_eqb_neq a b : str_eqb a b = false <-> a <> b.
Proof.
  split.
  - intros H E. apply str_eqb_eq in E. congruence.
  - intros H. destruct (str_eqb a b) eqn:E; [|reflexivity].
    apply str_eqb_eq in E. contradiction.
Qed.

(** ** Address formatting *)

Lemma format_02x_two_hex b : format_02x (Byte.to_nat b) = two_hex b.
Proof. destruct b; vm_compute; reflexivity. Qed.

Lemma two_hex_value b :
  Byte.of_nat (16 * hex_value (nth 0 (two_hex b) 0%N)
               + hex_value (nth 1 (two_hex b) 0%N)) = Some b.
Proof. destruct b; vm_compute; reflexivity. Qed.

Lemma two_hex_inj x y : two_hex x = two_hex y -> x = y.
Proof.
  intros H. pose proof (two_hex_value x) as Hx.
  rewrite H, two_hex_value in Hx. congruence.
Qed.

Lemma format_addr_canonical a : format_addr a = canonical a.
Proof.
  unfold format_addr. induction a as [|b rest IH]; [reflexivity|].
  cbn [map join canonical]. rewrite format_02x_two_hex.
  destruct rest as [|b' rest']; [reflexivity|].
  cbn [map] in *. rewrite IH. reflexivity.
Qed.

Lemma canonical_inj a : forall b, canonical a = canonical b -> a = b.
Proof.
  induction a as [|x a IH]; intros [|y b] H.
  - reflexivity.
  - discriminate.
  - discriminate.
  - cbn [canonical] in H. unfold two_hex in H at 1 2. cbn [app] in H.
    injection H as H1 H2 H3.
    assert (x = y).
    { apply two_hex_inj. unfold two_hex. f_equal; [exact H1|]. f_equal. exact H2. }
    subst y. f_equal.
    destruct a as [|x' a'], b as [|y' b']; try discriminate H3; [reflexivity|].
    apply IH. exact (f_equal (@tl char) H3).
Qed.

Lemma format_addr_inj a b : format_addr a = format_addr b -> a = b.
Proof. rewrite !format_addr_canonical. apply canonical_inj. Qed.

Lemma canonical_length a : len (canonical a) = 3 * len a - 1.
Proof.
  unfold len. induction a as [|b rest IH]; [reflexivity|].
  cbn [canonical]. unfold two_hex. cbn [app List.length].
  destruct rest as [|b' rest']; [reflexivity|].
  cbn [List.length] in *. lia.
Qed.

Lemma canonical_positions a : forall k b,
  nth_error a k = Some b ->
  nth_error (canonical a) (3 * k) = Some (hex_digit (Byte.to_nat b / 16)) /\
  nth_error (canonical a) (3 * k + 1) = Some (hex_digit (Byte.to_nat b mod 16)) /\
  (S k < len a -> nth_error (canonical a) (3 * k + 2) = Some 58%N).
Proof.
  induction a as [|x rest IH]; intros k b Hk; [destruct k; discriminate|].
  destruct k as [|k].
  - injection Hk as ->. cbn [canonical]. unfold two_hex. cbn [app].
    repeat split; try reflexivity.
    intros Hlen. destruct rest; [unfold len in Hlen; simpl in Hlen; lia|reflexivity].
  - cbn [nth_error] in Hk. destruct (IH k b Hk) as (P0 & P1 & P2).
    assert (Hrest : rest <> []) by (intros ->; destruct k; discriminate).
    cbn [canonical]. unfold two_hex at 1 2 3. cbn [app].
    destruct rest as [|y rest']; [contradiction|].
    replace (3 * S k) with (S (S (S (3 * k)))) by lia.
    cbn [nth_error Nat.add].
    repeat split; try assumption.
    intros Hlen. apply P2. unfold len in *. cbn [List.length] in *. lia.
Qed.

(** ** The registry *)

Lemma known_in a bs : known a bs = true <-> In a (map addr bs).
Proof.
  unfold known. rewrite existsb_exists, in_map_iff. split.
  - intros (b & Hb & E). apply str_eqb_eq in E. eauto.
  - intros (b & E & Hb). exists b. split; [assumption|]. now apply str_eqb_eq.
Qed.

Lemma known_snoc a bs b :
  known a (bs ++ [b]) = known a bs || str_eqb (addr b) a.
Proof. unfold known. rewrite existsb_app. simpl. now rewrite orb_false_r. Qed.

Lemma upsert_run a n r s :
  upsert a n r s =
  (Ok tt,
   if known a (beacons s) then s
   else set_beacons
          (beacons s ++ [ {| name := n; rssi := r; addr := a |} ]) s).
Proof.
  unfold upsert, bind, get, modify, ret.
  destruct (known a (beacons s)); reflexivity.
Qed.

Lemma nodup_snoc l a :
  nodup str_eq_dec (l ++ [a]) =
  nodup str_eq_dec (filter (fun x => negb (str_eqb a x)) l) ++ [a].
Proof.
  induction l as [|x l IH]; [reflexivity|].
  cbn [app nodup filter].
  destruct (str_eqb a x) eqn:E; cbn [negb].
  - apply str_eqb_eq in E. subst x.
    destruct (in_dec str_eq_dec a (l ++ [a])) as [_|N]; [exact IH|].
    exfalso. apply N, in_or_app. right. now left.
  - apply str_eqb_neq in E. cbn [nodup].
    destruct (in_dec str_eq_dec x (l ++ [a])) as [I|N];
      destruct (in_dec str_eq_dec x (filter (fun x => negb (str_eqb a x)) l))
        as [I'|N'].
    + exact IH.
    + exfalso. apply N', filter_In. apply in_app_or in I as [I|[I|[]]].
      * split; [assumption|]. apply negb_true_iff. now apply str_eqb_neq.
      * congruence.
    + exfalso. apply N, in_or_app. left. now apply filter_In in I'.
    + cbn [app]. now rewrite IH.
Qed.

Lemma first_occurrences_cons a l :
  first_occurrences (a :: l) =
  a :: first_occurrences (filter (fun x => negb (str_eqb a x)) l).
Proof.
  unfold first_occurrences. cbn [rev].
  rewrite nodup_snoc, rev_app_distr, filter_rev. reflexivity.
Qed.

Lemma first_occurrences_in x l : In x (first_occurrences l) <-> In x l.
Proof.
  unfold first_occurrences. now rewrite <- in_rev, nodup_In, <- in_rev.
Qed.

Lemma first_occurrences_NoDup l : NoDup (first_occurrences l).
Proof. apply NoDup_rev, NoDup_nodup. Qed.

Lemma filter_twice {A : Type} (f g : A -> bool) l :
  filter f (filter g l) = filter (fun x => g x && f x) l.
Proof.
  induction l as [|x l IH]; [reflexivity|].
  cbn [filter]. destruct (g x); cbn [filter andb]; [|exact IH].
  destruct (f x); now rewrite IH.
Qed.

Lemma upsert_all_spec calls : forall s,
  exists news,
    fst (upsert_all calls s) = Ok tt /\
    beacons (snd (upsert_all calls s)) = beacons s ++ news /\
    map addr news =
      first_occurrences
        (filter (fun x => negb (known x (beacons s)))
                (map sighting_addr calls)) /\
    Forall (fun b =>
              find (fun c => str_eqb (sighting_addr c) (addr b)) calls
              = Some (addr b, name b, rssi b)) news.
Proof.
  induction calls as [|c rest IH]; intros s.
  - exists []. cbn. rewrite app_nil_r. repeat split. constructor.
  - assert (E : upsert_all (c :: rest) s =
                 upsert_all rest
                   (if known (sighting_addr c) (beacons s) then s
                    else set_beacons
                           (beacons s ++
                            [ {| name := snd (fst c); rssi := snd c;
                                 addr := sighting_addr c |} ]) s)).
    { cbn [upsert_all]. unfold bind. now rewrite upsert_run. }
    rewrite E. clear E. cbn [map filter].
    destruct (known (sighting_addr c) (beacons s)) eqn:K; cbn [negb].
    + destruct (IH s) as (news & R & B & A & F).
      exists news. repeat split; try assumption.
      apply Forall_forall. intros b Hb.
      rewrite Forall_forall in F. cbn [find].
      assert (N : str_eqb (sighting_addr c) (addr b) = false).
      { apply str_eqb_neq. intros E.
        assert (I : In (addr b) (map addr news)) by now apply in_map.
        rewrite A in I. apply first_occurrences_in, filter_In in I.
        destruct I as [_ I]. rewrite <- E, K in I. discriminate. }
      rewrite N. now apply F.
    + set (bc := {| name := snd (fst c); rssi := snd c;
                    addr := sighting_addr c |}).
      destruct (IH (set_beacons (beacons s ++ [bc]) s))
        as (news & R & B & A & F).
      cbn [beacons set_beacons] in B, A.
      exists (bc :: news). repeat split.
      * assumption.
      * rewrite B, <- app_assoc. reflexivity.
      * cbn [map]. rewrite first_occurrences_cons, A, filter_twice.
        f_equal. f_equal. apply filter_ext. intros x.
        rewrite known_snoc, negb_orb. reflexivity.
      * constructor.
        -- cbn [find addr name rssi bc]. rewrite str_eqb_refl.
           now destruct c as [[? ?] ?].
        -- apply Forall_forall. intros b Hb.
           rewrite Forall_forall in F. cbn [find].
           assert (N : str_eqb (sighting_addr c) (addr b) = false).
           { assert (I : In (addr b) (map addr news)) by now apply in_map.
             rewrite A in I. apply first_occurrences_in, filter_In in I.
             destruct I as [_ I]. rewrite known_snoc, negb_orb in I.
             apply andb_true_iff in I as [_ I].
             now apply negb_true_iff in I. }
           rewrite N. now apply F.
Qed.

(** C3: an upsert of a known address leaves the state as it is; an
    upsert of a fresh address appends one entry at the end; over any
    sequence of upserts the old entries stay in place, the entries added
    are one per address not yet known, in the order in which those
    addresses first occur, each with the name and strength of that first
    occurrence, so the registry grows by at most one per distinct
    address. *)
Theorem upsert_first_discovery_wins (s : App) (a n : str) (r : Z)
        (calls : list sighting) :
  fst (upsert a n r s) = Ok tt /\
  snd (upsert a n r s) =
    (if known a (beacons s) then s
     else set_beacons
            (beacons s ++ [ {| name := n; rssi := r; addr := a |} ]) s) /\
  exists news,
    beacons (snd (upsert_all calls s)) = beacons s ++ news /\
    map addr news =
      first_occurrences
        (filter (fun x => negb (known x (beacons s)))
                (map sighting_addr calls)) /\
    NoDup (map addr news) /\
    len news <= len (nodup str_eq_dec (map sighting_addr calls)) /\
    Forall (fun b =>
              find (fun c => str_eqb (sighting_addr c) (addr b)) calls
              = Some (addr b, name b, rssi b)) news.
Proof.
  rewrite upsert_run. split; [reflexivity|]. split; [reflexivity|].
  destruct (upsert_all_spec calls s) as (news & _ & B & A & F).
  exists news. repeat split; try assumption.
  - rewrite A. apply first_occurrences_NoDup.
  - unfold len. rewrite <- (length_map addr news), A.
    apply NoDup_incl_length; [apply first_occurrences_NoDup|].
    intros x Hx. apply first_occurrences_in, filter_In in Hx.
    now apply nodup_In.
Qed.

(** ** The callback *)

Lemma irq_scan_result_run a r adv s :
  irq_scan_result a r adv s =
  match _decode_name adv with
  | Ok decoded => upsert (format_addr a) (or_default decoded (lit "?")) r s
  | Raise e => (Raise e, s)
  end.
Proof.
  unfold irq_scan_result, bind, lift. now destruct (_decode_name adv).
Qed.

Lemma irq_result_run addr_type a adv_type r adv s :
  _irq (ScanResult addr_type a adv_type r adv) s =
  (Ok tt,
   match _decode_name adv with
   | Ok decoded =>
       snd (upsert (format_addr a) (or_default decoded (lit "?")) r s)
   | Raise _ => s
   end).
Proof.
  cbn [_irq]. unfold try_except. rewrite irq_scan_result_run.
  destruct (_decode_name adv); [|reflexivity].
  now rewrite upsert_run.
Qed.

(** C8: the address stored for a discovery event is the canonical text of
    its raw bytes: it has three characters per byte less one, byte [k]
    gives the two lowercase hexadecimal digits at positions [3k] and
    [3k+1], high nibble first, and a colon follows at [3k+2] unless the
    byte is the last. *)
Theorem irq_stores_canonical_address
        (s : App) (addr_type : Z) (a : bytes) (adv_type r : Z) (adv : bytes) :
  let s' := snd (_irq (ScanResult addr_type a adv_type r adv) s) in
  (beacons s' = beacons s \/
   exists nm, beacons s' =
              beacons s ++ [ {| name := nm; rssi := r; addr := format_addr a |} ]) /\
  format_addr a = canonical a /\
  len (format_addr a) = 3 * len a - 1 /\
  forall k b,
    nth_error a k = Some b ->
    nth_error (format_addr a) (3 * k)
      = Some (hex_digit (Byte.to_nat b / 16)) /\
    nth_error (format_addr a) (3 * k + 1)
      = Some (hex_digit (Byte.to_nat b mod 16)) /\
    (S k < len a -> nth_error (format_addr a) (3 * k + 2) = Some 58%N).
Proof.
  cbv zeta. rewrite irq_result_run. cbn [snd]. split.
  - destruct (_decode_name adv) as [decoded|e]; [|now left].
    rewrite upsert_run. cbn [snd].
    destruct (known _ _); [now left|right]. eexists. reflexivity.
  - rewrite format_addr_canonical. split; [reflexivity|].
    split; [apply canonical_length|apply canonical_positions].
Qed.

(** C9: when the handling of a discovery event raises, the state is the
    one before the event - the registry has no new entry and the
    completion flag is as it was - and the callback returns normally. *)
Theorem irq_exception_leaves_state
        (s s1 : App) (addr_type : Z) (a : bytes) (adv_type r : Z)
        (adv : bytes) (e : exn) :
  irq_scan_result a r adv s = (Raise e, s1) ->
  s1 = s /\
  _irq (ScanResult addr_type a adv_type r adv) s = (Ok tt, s) /\
  beacons (snd (_irq (ScanResult addr_type a adv_type r adv) s)) = beacons s /\
  scan_complete (snd (_irq (ScanResult addr_type a adv_type r adv) s))
    = scan_complete s.
Proof.
  intros H. rewrite irq_result_run. rewrite irq_scan_result_run in H.
  destruct (_decode_name adv) as [decoded|e'].
  - rewrite upsert_run in H. discriminate.
  - injection H as _ <-. repeat split.
Qed.

Lemma irq_exception_leaves_state_witness :
  let s := set_scan_complete true
             (set_beacons [ {| name := lit "x"; rssi := (-40)%Z;
                               addr := lit "01:02" |} ] __init__) in
  let ev := ScanResult 0 [x0a; x0b] 0 (-60) [x02; x09; xff] in
  _irq ev s = (Ok tt, s) /\
  beacons (snd (_irq ev s)) = beacons s /\
  scan_complete (snd (_irq ev s)) = scan_complete s.
Proof.
  cbv zeta.
  refine (proj2 (irq_exception_leaves_state _ _ 0%Z [x0a; x0b] 0%Z (-60)%Z
                   [x02; x09; xff] (Exn UnicodeError []) _)).
  reflexivity.
Defined.

(** ** Event delivery *)

Lemma irq_ok ev s : fst (_irq ev s) = Ok tt.
Proof.
  destruct ev; [rewrite irq_result_run|..]; reflexivity.
Qed.

Lemma irq_log ev e s : snd (_irq ev (log e s)) = log e (snd (_irq ev s)).
Proof.
  destruct ev as [t a v r adv| |c]; [|reflexivity..].
  rewrite !irq_result_run. cbn [snd].
  destruct (_decode_name adv) as [d|x]; [|reflexivity].
  rewrite !upsert_run. cbn [snd beacons log].
  destruct (known _ _); reflexivity.
Qed.

Lemma deliver_app evs1 evs2 s :
  deliver (evs1 ++ evs2) s = deliver evs2 (deliver evs1 s).
Proof. apply fold_left_app. Qed.

Lemma deliver_log evs : forall e s,
  deliver evs (log e s) = log e (deliver evs s).
Proof.
  induction evs as [|ev evs IH]; intros e s; [reflexivity|].
  cbn [deliver fold_left]. rewrite irq_log. apply IH.
Qed.

Lemma deliver_trace evs : forall s, trace (deliver evs s) = trace s.
Proof.
  induction evs as [|ev evs IH]; intros s; [reflexivity|].
  cbn [deliver fold_left]. fold (deliver evs (snd (_irq ev s))). rewrite IH.
  destruct ev as [t a v r adv| |c]; [|reflexivity..].
  rewrite irq_result_run. cbn [snd].
  destruct (_decode_name adv); [|reflexivity].
  rewrite upsert_run. cbn [snd]. destruct (known _ _); reflexivity.
Qed.

Lemma deliver_scan_complete evs : forall s,
  scan_complete (deliver evs s) = scan_complete s || existsb is_done evs.
Proof.
  induction evs as [|ev evs IH]; intros s.
  - cbn. now rewrite orb_false_r.
  - cbn [deliver fold_left existsb].
    fold (deliver evs (snd (_irq ev s))). rewrite IH.
    destruct ev as [t a v r adv| |c]; cbn [is_done].
    + rewrite irq_result_run. cbn [snd].
      destruct (_decode_name adv); [|reflexivity].
      rewrite upsert_run. cbn [snd]. destruct (known _ _); reflexivity.
    + cbn. now rewrite orb_true_r.
    + reflexivity.
Qed.

Lemma deliver_no_result evs : forall s,
  existsb is_result evs = false -> beacons (deliver evs s) = beacons s.
Proof.
  induction evs as [|ev evs IH]; intros s H; [reflexivity|].
  cbn [existsb] in H. apply orb_false_iff in H as [H1 H2].
  cbn [deliver fold_left]. fold (deliver evs (snd (_irq ev s))).
  rewrite IH by assumption.
  destruct ev; [discriminate|reflexivity..].
Qed.

Lemma logs_snoc es e s : logs (es ++ [e]) s = log e (logs es s).
Proof. unfold logs. now rewrite fold_left_app. Qed.

Lemma logs_cons e es s : logs (e :: es) s = logs es (log e s).
Proof. reflexivity. Qed.

Lemma logs_trace es : forall s, trace (logs es s) = trace s ++ es.
Proof.
  induction es as [|e es IH]; intros s.
  - cbn. now rewrite app_nil_r.
  - rewrite logs_cons, IH. cbn [trace log]. now rewrite <- app_assoc.
Qed.

Lemma logs_beacons es : forall s, beacons (logs es s) = beacons s.
Proof.
  induction es as [|e es IH]; intros s; [reflexivity|].
  rewrite logs_cons, IH. reflexivity.
Qed.

Lemma logs_scan_complete es : forall s,
  scan_complete (logs es s) = scan_complete s.
Proof.
  induction es as [|e es IH]; intros s; [reflexivity|].
  rewrite logs_cons, IH. reflexivity.
Qed.

Lemma batches_S env k n :
  batches env k (S n) = polls env k ++ batches env (S k) n.
Proof. reflexivity. Qed.

Lemma batches_split env k n m :
  batches env k (n + m) = batches env k n ++ batches env (k + n) m.
Proof.
  unfold batches. now rewrite seq_app, map_app, concat_app.
Qed.

Lemma batches_done env k n :
  existsb is_done (batches env k n) = true ->
  exists j, j < n /\ In ScanDone (polls env (k + j)).
Proof.
  revert k. induction n as [|n IH]; intros k H; [discriminate|].
  rewrite batches_S, existsb_app in H.
  apply orb_true_iff in H as [H|H].
  - exists 0. split; [lia|]. rewrite Nat.add_0_r.
    apply existsb_exists in H as (ev & I & D). now destruct ev.
  - destruct (IH _ H) as (j & Hj & I). exists (S j). split; [lia|].
    now rewrite Nat.add_succ_r.
Qed.

Lemma batches_quiet (p : irq_event -> bool) env k n :
  (forall j, j < n -> existsb p (polls env (k + j)) = false) ->
  existsb p (batches env k n) = false.
Proof.
  revert k. induction n as [|n IH]; intros k H; [reflexivity|].
  rewrite batches_S, existsb_app. apply orb_false_iff. split.
  - rewrite <- (Nat.add_0_r k). apply H. lia.
  - apply IH. intros j Hj. rewrite Nat.add_succ_comm. apply H. lia.
Qed.

(** ** The wait loop *)

Lemma wait_loop_spec env timeout : forall k s,
  exists n,
    n <= timeout /\
    wait_loop env timeout k s =
      (Ok tt, logs (repeat (Slept 100) n) (deliver (batches env k n) s)) /\
    (n < timeout -> scan_complete (deliver (batches env k n) s) = true) /\
    (forall j, j < n -> scan_complete (deliver (batches env k j) s) = false).
Proof.
  induction timeout as [|t IH]; intros k s.
  - exists 0. repeat split; lia.
  - cbn [wait_loop]. unfold bind at 1, get.
    destruct (scan_complete s) eqn:C; cbn [negb].
    + exists 0. split; [lia|]. split; [reflexivity|].
      split; [intros _; exact C|]. intros j Hj. lia.
    + unfold bind, sleep, modify.
      destruct (IH (S k) (deliver (polls env k) (log (Slept 100) s)))
        as (n & Hn & W & Hdone & Hnot).
      exists (S n). rewrite W. clear W.
      rewrite deliver_log in *. rewrite deliver_log in *.
      rewrite batches_S, deliver_app.
      repeat split.
      * lia.
      * intros H. rewrite <- Hdone by lia. reflexivity.
      * intros [|j] Hj; [exact C|].
        rewrite batches_S, deliver_app.
        specialize (Hnot j ltac:(lia)). rewrite deliver_log in Hnot.
        exact Hnot.
Qed.

(** ** Running the monad *)

Lemma bind_ret {A B : Type} (a : A) (k : A -> M B) s :
  bind (ret a) k s = k a s.
Proof. reflexivity. Qed.

Lemma bind_get {B : Type} (k : App -> M B) s : bind get k s = k s s.
Proof. reflexivity. Qed.

Lemma bind_modify {B : Type} (f : App -> App) (k : unit -> M B) s :
  bind (modify f) k s = k tt (f s).
Proof. reflexivity. Qed.

Lemma bind_assoc {A B C : Type} (c : M A) (k : A -> M B) (h : B -> M C) s :
  bind (bind c k) h s = bind c (fun x => bind (k x) h) s.
Proof. unfold bind. destruct (c s) as [[a|e] s']; reflexivity. Qed.

Lemma bind_call_ok {B : Type} env c (k : unit -> M B) s :
  fails env c = None ->
  bind (call env c) k s = k tt (log (Called c None) s).
Proof. intros H. unfold bind, call. now rewrite H. Qed.

Lemma bind_call_fail {B : Type} env c m (k : unit -> M B) s :
  fails env c = Some m ->
  bind (call env c) k s
  = (Raise (Exn ExternalError m), log (Called c (Some m)) s).
Proof. intros H. unfold bind, call. now rewrite H. Qed.

Lemma call_ok env c s :
  fails env c = None -> call env c s = (Ok tt, log (Called c None) s).
Proof. intros H. unfold call. now rewrite H. Qed.

Lemma call_fail env c m s :
  fails env c = Some m ->
  call env c s = (Raise (Exn ExternalError m), log (Called c (Some m)) s).
Proof. intros H. unfold call. now rewrite H. Qed.

Lemma wait_loop_ok env timeout k s :
  wait_loop env timeout k s = (Ok tt, snd (wait_loop env timeout k s)).
Proof.
  destruct (wait_loop_spec env timeout k s) as (n & _ & W & _).
  now rewrite W.
Qed.

Lemma bind_wait_loop {B : Type} env timeout k0 (k : unit -> M B) s :
  bind (wait_loop env timeout k0) k s
  = k tt (snd (wait_loop env timeout k0 s)).
Proof. unfold bind. now rewrite wait_loop_ok. Qed.

(** ** The scan attempt *)

Lemma trace_last (t t' pre : list effect) x :
  t' = t ++ pre -> t' ++ [x] = t ++ pre ++ [x].
Proof. intros ->. now rewrite app_assoc. Qed.

Lemma trace_more (t t' pre : list effect) e :
  t' = t ++ pre -> t' ++ [e] = t ++ (pre ++ [e]).
Proof. intros ->. now rewrite app_assoc. Qed.

Lemma trace_none (t : list effect) : t = t ++ [].
Proof. now rewrite app_nil_r. Qed.

Ltac fields :=
  cbn [trace beacons scan_complete status _ble radio_active
       log set_status set_beacons set_scan_complete set_ble
       set_radio_active deliver fold_left].

Ltac trace_goal :=
  fields; apply trace_last; repeat apply trace_more; apply trace_none.

Ltac failed_leaf :=
  intros E; apply pair_equal_spec in E as [<- <-]; left;
  do 4 eexists; split; [reflexivity|];
  split; [eassumption|];
  split; [reflexivity|];
  split; [trace_goal|];
  split; [reflexivity|];
  split; reflexivity.

Ltac run_call env c k s :=
  lazymatch goal with
  | F : fails env c = None |- _ => rewrite (bind_call_ok env c k s F)
  | _ =>
      let F := fresh "F" in
      destruct (fails env c) as [?m|] eqn:F;
      [ rewrite (bind_call_fail env c _ k s F); solve [failed_leaf]
      | rewrite (bind_call_ok env c k s F) ]
  end.

Ltac run_step :=
  lazymatch goal with
  | |- bind (bind ?c ?k) ?h ?s = _ -> _ => rewrite (bind_assoc c k h s)
  | |- bind (ret ?a) ?k ?s = _ -> _ => rewrite (bind_ret a k s)
  | |- bind get ?k ?s = _ -> _ => rewrite (bind_get k s)
  | |- bind (modify ?f) ?k ?s = _ -> _ => rewrite (bind_modify f k s)
  | |- bind (wait_loop ?env ?t ?k0) ?k ?s = _ -> _ =>
      rewrite (bind_wait_loop env t k0 k s)
  | |- bind (call ?env ?c) ?k ?s = _ -> _ => run_call env c k s
  | |- bind (match _ble _ with _ => _ end) _ _ = _ -> _ =>
      fields;
      lazymatch goal with
      | |- context [match _ble ?x with _ => _ end] => destruct (_ble x) eqn:?
      end
  | |- bind (if negb _ then _ else _) _ _ = _ -> _ =>
      fields;
      lazymatch goal with
      | |- context [if negb (radio_active ?x) then _ else _] =>
          destruct (radio_active x) eqn:?; cbn [negb]
      end
  end;
  cbv beta.

Ltac started_leaf :=
  unfold modify; intros E; apply pair_equal_spec in E as [<- <-]; right;
  match goal with
  | |- context [wait_loop _ 30 0 ?s1] => exists s1
  end;
  eexists; split; [reflexivity|];
  split; [reflexivity|];
  split; [trace_goal|];
  split; [reflexivity|];
  split; reflexivity.

(** Either some call of the [try] block raises - then nothing follows it,
    and the registry and the completion flag are as on entry - or the
    scan command is accepted and the wait loop runs. *)
Lemma scan_body_cases env s :
  (exists pre c m s1,
      scan_body env s = (Raise (Exn ExternalError m), s1) /\
      fails env c = Some m /\
      scan_call c = true /\
      trace s1 = trace s ++ pre ++ [Called c (Some m)] /\
      forallb is_prelude pre = true /\
      beacons s1 = beacons s /\
      scan_complete s1 = scan_complete s)
  \/
  (exists s1 pre,
      scan_body env s =
        (Ok tt,
         set_status
           (lit "Found " ++
            format_d (len (beacons (snd (wait_loop env 30 0 s1)))))
           (snd (wait_loop env 30 0 s1))) /\
      fails env GapScan = None /\
      trace s1 = trace s ++ pre ++ [Called GapScan None] /\
      forallb is_prelude pre = true /\
      beacons s1 = beacons s /\
      scan_complete s1 = scan_complete s).
Proof.
  destruct (scan_body env s) as [r s'] eqn:E. revert E.
  unfold scan_body, query_active, sleep.
  do 4 run_step; repeat run_step; started_leaf.
Qed.

Lemma irq_beacons_ext ev s s' :
  beacons s = beacons s' ->
  beacons (snd (_irq ev s)) = beacons (snd (_irq ev s')).
Proof.
  intros H. destruct ev as [t a v r adv| |c]; [|exact H..].
  rewrite !irq_result_run. cbn [snd].
  destruct (_decode_name adv); [|exact H].
  rewrite !upsert_run. cbn [snd]. rewrite <- H.
  destruct (known _ _); [exact H|reflexivity].
Qed.

Lemma deliver_beacons_ext evs : forall s s',
  beacons s = beacons s' ->
  beacons (deliver evs s) = beacons (deliver evs s').
Proof.
  induction evs as [|ev evs IH]; intros s s' H; [exact H|].
  cbn [deliver fold_left]. apply IH. now apply irq_beacons_ext.
Qed.

Lemma do_scan_run env s :
  _do_scan env s =
  match scan_body env
          (set_scan_complete false
             (set_beacons [] (set_status (lit "Init...") s)))
  with
  | (Ok a, s') => (Ok a, s')
  | (Raise e, s') =>
      (Ok tt, set_status (lit "Err: " ++ firstn 15 (str_of_exn e)) s')
  end.
Proof. reflexivity. Qed.

Lemma prelude_not_failure e : is_prelude e = true -> is_failure e = false.
Proof. destruct e as [c [m|]|ms| | |]; simpl; congruence. Qed.

Lemma failure_is_last (l : list effect) : forall pre f post x,
  forallb is_prelude l = true ->
  is_failure f = true ->
  pre ++ f :: post = l ++ [x] ->
  pre = l /\ f = x /\ post = [].
Proof.
  induction l as [|y l IH]; intros pre f post x Hl Hf E.
  - destruct pre as [|p pre]; cbn in E.
    + injection E as -> ->. auto.
    + injection E as _ E. now destruct pre.
  - cbn [forallb] in Hl. apply andb_true_iff in Hl as [Hy Hl].
    destruct pre as [|p pre]; cbn in E.
    + injection E as -> _. apply prelude_not_failure in Hy. congruence.
    + injection E as -> E.
      destruct (IH _ _ _ _ Hl Hf E) as (-> & -> & ->). auto.
Qed.

Lemma no_failure_inside (l : list effect) : forall pre f post,
  forallb (fun e => negb (is_failure e)) l = true ->
  is_failure f = true ->
  pre ++ f :: post <> l.
Proof.
  intros pre f post Hl Hf E. subst l.
  rewrite forallb_app in Hl. apply andb_true_iff in Hl as [_ Hl].
  cbn [forallb] in Hl. rewrite Hf in Hl. discriminate.
Qed.

Lemma quiet_after_start pre n :
  forallb is_prelude pre = true ->
  forallb (fun e => negb (is_failure e))
          (pre ++ Called GapScan None :: repeat (Slept 100) n) = true.
Proof.
  intros H. rewrite forallb_app. apply andb_true_iff. split.
  - apply forallb_forall. intros e He.
    rewrite forallb_forall in H. now rewrite (prelude_not_failure _ (H e He)).
  - cbn [forallb is_failure negb andb]. apply forallb_forall.
    intros e He. apply repeat_spec in He. now subst e.
Qed.

(** What a scan attempt does once every call returns: after the prelude
    and the scan command come [n <= 30] suspensions of 100 ms, during
    which the callback handles the events of the first [n] batches. *)
Lemma do_scan_started env s :
  radio_ok env ->
  exists pre n s1,
    fst (_do_scan env s) = Ok tt /\
    trace (snd (_do_scan env s))
      = trace s ++ pre ++ Called GapScan None :: repeat (Slept 100) n /\
    forallb is_prelude pre = true /\
    n <= 30 /\
    beacons s1 = [] /\
    beacons (snd (_do_scan env s))
      = beacons (deliver (batches env 0 n) s1) /\
    scan_complete (snd (_do_scan env s))
      = existsb is_done (batches env 0 n) /\
    status (snd (_do_scan env s))
      = lit "Found " ++ format_d (len (beacons (snd (_do_scan env s)))) /\
    (n < 30 -> existsb is_done (batches env 0 n) = true) /\
    (forall j, j < n -> existsb is_done (batches env 0 j) = false).
Proof.
  intros Hok. rewrite do_scan_run.
  set (s0 := set_scan_complete false
               (set_beacons [] (set_status (lit "Init...") s))).
  destruct (scan_body_cases env s0)
    as [(pre & c & m & s1 & _ & F & Hc & _)
       |(s1 & pre & E & _ & T & P & B & C)].
  { rewrite (Hok c Hc) in F. discriminate. }
  rewrite E. clear E.
  destruct (wait_loop_spec env 30 0 s1) as (n & Hn & W & Hdone & Hnot).
  rewrite W. cbn [fst snd]. clear W.
  exists pre, n, s1.
  cbn [trace beacons scan_complete status set_status].
  rewrite logs_trace, logs_beacons, logs_scan_complete, deliver_trace.
  rewrite deliver_scan_complete, C, T. cbn [scan_complete s0 set_scan_complete orb].
  repeat split; try assumption.
  - cbn [trace s0 set_scan_complete set_beacons set_status].
    rewrite <- !app_assoc. reflexivity.
  - intros H. specialize (Hdone H).
    rewrite deliver_scan_complete, C in Hdone. exact Hdone.
  - intros j Hj. specialize (Hnot j Hj).
    rewrite deliver_scan_complete, C in Hnot. exact Hnot.
Qed.

Lemma do_scan_returns env s : fst (_do_scan env s) = Ok tt.
Proof.
  rewrite do_scan_run.
  destruct (scan_body_cases env
              (set_scan_complete false
                 (set_beacons [] (set_status (lit "Init...") s))))
    as [(pre & c & m & s1 & E & _)|(s1 & pre & E & _)];
    now rewrite E.
Qed.

Lemma done_is_last (xs : list irq_event) : forall p q,
  p ++ q = xs ++ [ScanDone] ->
  existsb is_done p = true ->
  existsb is_done xs = false ->
  q = [].
Proof.
  induction xs as [|x xs IH]; intros p q E Hp Hx.
  - destruct p as [|e p]; [discriminate|].
    cbn in E. injection E as _ E. now apply app_eq_nil in E.
  - destruct p as [|e p]; [discriminate|].
    cbn in E. injection E as -> E.
    cbn [existsb] in Hp, Hx. apply orb_false_iff in Hx as [Hx1 Hx2].
    rewrite Hx1 in Hp. now apply (IH p q).
Qed.

(** C4: when every call of the attempt returns, the attempt ends with
    status "Found n", n being the size of the registry; without any
    discovery event that is "Found 0"; and with discovery events for A,
    B and A again, each with a name record, then the end of the scan, the
    registry is [A, B] and the status is "Found 2". *)
Theorem scan_completed (env : Env) (s : App) :
  radio_ok env ->
  fst (_do_scan env s) = Ok tt /\
  status (snd (_do_scan env s))
    = lit "Found " ++ format_d (len (beacons (snd (_do_scan env s)))) /\
  ((forall k, k < 30 -> existsb is_result (polls env k) = false) ->
   beacons (snd (_do_scan env s)) = [] /\
   status (snd (_do_scan env s)) = lit "Found 0") /\
  (forall a b ta tb ta' va vb va' ra rb ra' adv_a adv_b adv_a' na nb na',
      a <> b ->
      _decode_name adv_a = Ok (Some na) ->
      _decode_name adv_b = Ok (Some nb) ->
      _decode_name adv_a' = Ok (Some na') ->
      batches env 0 30 =
        [ScanResult ta a va ra adv_a; ScanResult tb b vb rb adv_b;
         ScanResult ta' a va' ra' adv_a'; ScanDone] ->
      beacons (snd (_do_scan env s)) =
        [ {| name := or_default (Some na) (lit "?"); rssi := ra;
             addr := format_addr a |};
          {| name := or_default (Some nb) (lit "?"); rssi := rb;
             addr := format_addr b |} ] /\
      status (snd (_do_scan env s)) = lit "Found 2").
Proof.
  intros Hok.
  destruct (do_scan_started env s Hok)
    as (pre & n & s1 & R & T & P & Hn & B1 & B & C & St & Hdone & Hnot).
  split; [exact R|]. split; [exact St|]. split.
  - intros Hq.
    assert (E : beacons (snd (_do_scan env s)) = []).
    { rewrite B, deliver_no_result; [exact B1|].
      apply batches_quiet. intros j Hj. apply Hq. cbn. lia. }
    split; [exact E|]. rewrite St, E. reflexivity.
  - intros a b ta tb ta' va vb va' ra rb ra' adv_a adv_b adv_a' na nb na'
           Hab Da Db Da' Hev.
    assert (E : batches env 0 n =
                [ScanResult ta a va ra adv_a; ScanResult tb b vb rb adv_b;
                 ScanResult ta' a va' ra' adv_a'; ScanDone]).
    { destruct (Nat.eq_dec n 30) as [->|Hne]; [exact Hev|].
      replace 30 with (n + (30 - n)) in Hev by lia.
      rewrite batches_split in Hev.
      change [ScanResult ta a va ra adv_a; ScanResult tb b vb rb adv_b;
              ScanResult ta' a va' ra' adv_a'; ScanDone]
        with ([ScanResult ta a va ra adv_a; ScanResult tb b vb rb adv_b;
               ScanResult ta' a va' ra' adv_a'] ++ [ScanDone]) in Hev.
      pose proof (done_is_last _ _ _ Hev (Hdone ltac:(lia)) eq_refl) as Q.
      rewrite Q, app_nil_r in Hev. exact Hev. }
    assert (Eb : beacons (snd (_do_scan env s)) =
                 [ {| name := or_default (Some na) (lit "?"); rssi := ra;
                      addr := format_addr a |};
                   {| name := or_default (Some nb) (lit "?"); rssi := rb;
                      addr := format_addr b |} ]).
    { rewrite B, E. cbn [deliver fold_left].
      rewrite !irq_result_run, Da, Db, Da'. cbn [snd].
      assert (N : str_eqb (format_addr a) (format_addr b) = false).
      { apply str_eqb_neq. intros H. apply Hab. now apply format_addr_inj. }
      rewrite !upsert_run. cbn [snd]. rewrite B1. unfold known.
      cbn [existsb negb beacons set_beacons app addr].
      rewrite N. cbn [orb beacons set_beacons app existsb addr].
      rewrite str_eqb_refl. cbn [orb]. reflexivity. }
    split; [exact Eb|]. rewrite St, Eb. reflexivity.
Qed.

Lemma scan_completed_witness :
  beacons (snd (_do_scan demo_env after_earlier_scan)) =
    [ {| name := lit "A"; rssi := (-40)%Z; addr := lit "01:ab:03:04:05:06" |};
      {| name := lit "B"; rssi := (-50)%Z; addr := lit "01:ab:03:04:05:07" |} ]
  /\ status (snd (_do_scan demo_env after_earlier_scan)) = lit "Found 2".
Proof.
  assert (Hok : radio_ok demo_env) by (intros c _; reflexivity).
  destruct (scan_completed demo_env after_earlier_scan Hok) as (_ & _ & _ & H).
  refine (H addr_A addr_B 0%Z 0%Z 0%Z 0%Z 0%Z 0%Z (-40)%Z (-50)%Z (-70)%Z
            [x02; x01; x06; x02; x09; x41] [x02; x09; x42]
            [x03; x09; x41; x32] (lit "A") (lit "B") (lit "A2") _ _ _ _ _).
  - discriminate.
  - reflexivity.
  - reflexivity.
  - reflexivity.
  - reflexivity.
Defined.

(** C5: once the scan command is accepted, the wait loop suspends at
    most 30 times, 100 ms each, whatever the callback receives; it
    suspends exactly 30 times when the end of the scan is never
    signalled; and either way the attempt returns normally with the
    status "Found n". *)
Theorem wait_loop_within_ceiling (env : Env) (s : App) :
  radio_ok env ->
  exists pre n,
    fst (_do_scan env s) = Ok tt /\
    trace (snd (_do_scan env s))
      = trace s ++ pre ++ Called GapScan None :: repeat (Slept 100) n /\
    forallb is_prelude pre = true /\
    n <= 30 /\
    100 * n <= 3000 /\
    status (snd (_do_scan env s))
      = lit "Found " ++ format_d (len (beacons (snd (_do_scan env s)))) /\
    ((forall k, k < 30 -> existsb is_done (polls env k) = false) -> n = 30).
Proof.
  intros Hok.
  destruct (do_scan_started env s Hok)
    as (pre & n & s1 & R & T & P & Hn & B1 & B & C & St & Hdone & Hnot).
  exists pre, n. repeat split; try assumption; try lia.
  intros Hq. destruct (Nat.eq_dec n 30) as [|Hne]; [assumption|].
  rewrite batches_quiet in Hdone; [specialize (Hdone ltac:(lia)); discriminate|].
  intros j Hj. apply Hq. cbn. lia.
Qed.

Lemma wait_loop_within_ceiling_witness :
  exists pre n,
    fst (_do_scan quiet_env __init__) = Ok tt /\
    trace (snd (_do_scan quiet_env __init__))
      = trace __init__ ++ pre ++ Called GapScan None :: repeat (Slept 100) n /\
    forallb is_prelude pre = true /\
    n <= 30 /\
    100 * n <= 3000 /\
    status (snd (_do_scan quiet_env __init__))
      = lit "Found " ++
        format_d (len (beacons (snd (_do_scan quiet_env __init__)))) /\
    ((forall k, k < 30 -> existsb is_done (polls quiet_env k) = false) ->
     n = 30).
Proof.
  apply (wait_loop_within_ceiling quiet_env __init__).
  intros c _. reflexivity.
Defined.

(** C6: a scan attempt never raises; and when one of its calls raises
    (radio activation and scan start among them), that call is the last
    thing the attempt does - no scan command after a failed activation,
    no suspension of the wait loop - the status is "Err: " followed by
    at most the first 15 characters of the error text, and the registry
    is empty. *)
Theorem do_scan_failure_reported (env : Env) (s : App) :
  fst (_do_scan env s) = Ok tt /\
  forall pre c m post,
    trace (snd (_do_scan env s)) = trace s ++ pre ++ Called c (Some m) :: post ->
    post = [] /\
    forallb is_prelude pre = true /\
    fails env c = Some m /\
    status (snd (_do_scan env s)) = lit "Err: " ++ firstn 15 m /\
    len (firstn 15 m) <= 15 /\
    beacons (snd (_do_scan env s)) = [].
Proof.
  rewrite do_scan_run.
  set (s0 := set_scan_complete false
               (set_beacons [] (set_status (lit "Init...") s))).
  destruct (scan_body_cases env s0)
    as [(pre0 & c0 & m0 & s1 & E & F & _ & T & P & B & C)
       |(s1 & pre0 & E & _ & T & P & B & C)].
  - rewrite E. cbn [fst snd trace beacons status set_status].
    split; [reflexivity|].
    intros pre c m post H. rewrite T in H.
    cbn [trace s0 set_scan_complete set_beacons set_status] in H.
    apply app_inv_head in H. symmetry in H.
    destruct (failure_is_last pre0 pre (Called c (Some m)) post _ P eq_refl H)
      as (-> & Hc & ->).
    injection Hc as -> ->.
    repeat split; try assumption.
    + unfold len. rewrite length_firstn. lia.
  - rewrite E. cbn [fst snd]. split; [reflexivity|].
    intros pre c m post H. exfalso.
    destruct (wait_loop_spec env 30 0 s1) as (n & _ & W & _).
    rewrite W in H. cbn [snd trace set_status] in H.
    rewrite logs_trace, deliver_trace, T in H.
    cbn [trace s0 set_scan_complete set_beacons set_status] in H.
    rewrite <- !app_assoc in H. apply app_inv_head in H. cbn [app] in H.
    symmetry in H. revert H. apply no_failure_inside; [|reflexivity].
    now apply quiet_after_start.
Qed.

Lemma do_scan_failure_reported_witness :
  status (snd (_do_scan failing_env after_teardown))
    = lit "Err: BLE stack could" /\
  beacons (snd (_do_scan failing_env after_teardown)) = [].
Proof.
  destruct (do_scan_failure_reported failing_env after_teardown) as [_ H].
  destruct (H [Called ImportGc None; Called GcCollect None;
               Called GcMemFree None;
               Called ImportBluetooth None; Called QueryActive None;
               Called QueryActive None; Called SetIrq None]
              Activate (lit "BLE stack could not be started") []
              eq_refl) as (_ & _ & _ & St & _ & B).
  split; [exact St|exact B].
Defined.

(** C10: the attempt starts from a cleared completion flag, whatever an
    earlier scan left behind: the flag at the end is set exactly when an
    end-of-scan event arrived during this attempt's suspensions, the
    wait loop stops before its 30th suspension only if such an event
    arrived during one of the suspensions it made, and without any such
    event it runs the full 30 suspensions. *)
Theorem stale_completion_ignored (env : Env) (s : App) :
  radio_ok env ->
  exists pre n,
    trace (snd (_do_scan env s))
      = trace s ++ pre ++ Called GapScan None :: repeat (Slept 100) n /\
    forallb is_prelude pre = true /\
    n <= 30 /\
    scan_complete (snd (_do_scan env s))
      = existsb is_done (batches env 0 n) /\
    (n < 30 -> exists k, k < n /\ In ScanDone (polls env k)) /\
    ((forall k, k < 30 -> existsb is_done (polls env k) = false) ->
     n = 30 /\ scan_complete (snd (_do_scan env s)) = false).
Proof.
  intros Hok.
  destruct (do_scan_started env s Hok)
    as (pre & n & s1 & R & T & P & Hn & B1 & B & C & St & Hdone & Hnot).
  exists pre, n. repeat split; try assumption.
  - intros H. destruct (batches_done env 0 n (Hdone H)) as (j & Hj & I).
    exists j. split; assumption.
  - destruct (Nat.eq_dec n 30) as [|Hne]; [assumption|].
    rewrite batches_quiet in Hdone;
      [specialize (Hdone ltac:(lia)); discriminate|].
    intros j Hj. apply H. cbn. lia.
  - rewrite C. apply batches_quiet. intros j Hj. apply H. cbn. lia.
Qed.

Lemma stale_completion_ignored_witness :
  scan_complete after_earlier_scan = true /\
  exists pre n,
    trace (snd (_do_scan demo_env after_earlier_scan))
      = trace after_earlier_scan ++ pre ++
        Called GapScan None :: repeat (Slept 100) n /\
    forallb is_prelude pre = true /\
    n <= 30 /\
    scan_complete (snd (_do_scan demo_env after_earlier_scan))
      = existsb is_done (batches demo_env 0 n) /\
    (n < 30 -> exists k, k < n /\ In ScanDone (polls demo_env k)) /\
    ((forall k, k < 30 -> existsb is_done (polls demo_env k) = false) ->
     n = 30 /\
     scan_complete (snd (_do_scan demo_env after_earlier_scan)) = false).
Proof.
  split; [reflexivity|].
  apply (stale_completion_ignored demo_env after_earlier_scan).
  intros c _. reflexivity.
Defined.

(** ** Teardown and the UI loop *)

Lemma cleanup_returns env s : fst (_cleanup_ble env s) = Ok tt.
Proof.
  unfold _cleanup_ble. rewrite bind_get.
  destruct (_ble s); [|reflexivity].
  unfold try_except, bind, call.
  destruct (fails env StopScan); [reflexivity|].
  destruct (fails env Deactivate); reflexivity.
Qed.

Lemma cleanup_attempts_stop env s h :
  _ble s = Some h ->
  exists pre post,
    trace (snd (_cleanup_ble env s))
      = trace s ++ pre ++ Called StopScan (fails env StopScan) :: post.
Proof.
  intros H. unfold _cleanup_ble. rewrite bind_get, H.
  unfold try_except, bind, call.
  exists []. destruct (fails env StopScan); [now exists []|].
  destruct (fails env Deactivate); cbn [snd trace log set_radio_active modify ret];
    eexists; rewrite <- app_assoc; reflexivity.
Qed.

Lemma run_iter_cancel env s :
  CANCEL (button_states s) = true ->
  run_iter env s =
  (Ok Exit, log Minimised (snd (_cleanup_ble env (snd (clear_buttons s))))).
Proof.
  intros H. unfold run_iter. rewrite bind_get, H.
  unfold clear_buttons. rewrite bind_modify.
  unfold bind at 1.
  pose proof (cleanup_returns env
    (log ButtonsCleared
       (set_button_states {| UP := false; DOWN := false; CANCEL := false |} s)))
    as R.
  destruct (_cleanup_ble env _) as [[u|e] s'] eqn:E;
    cbn [fst] in R; [|discriminate].
  reflexivity.
Qed.

Lemma run_iter_continue env s :
  CANCEL (button_states s) = false ->
  fst (run_iter env s) = Ok Continue.
Proof.
  intros H. unfold run_iter. rewrite bind_get, H, bind_get.
  assert (G : forall (c : M unit) (k : unit -> M control) s0,
             fst (c s0) = Ok tt ->
             (forall s1, fst (k tt s1) = Ok Continue) ->
             fst (bind c k s0) = Ok Continue).
  { intros c k s0 Hc Hk. unfold bind.
    destruct (c s0) as [[[]|e] s1]; cbn [fst] in Hc; [apply Hk|discriminate]. }
  apply G; [destruct (UP (button_states s)); reflexivity|]. intros s1.
  rewrite bind_get.
  apply G; [destruct (DOWN (button_states s1)); reflexivity|]. intros s2.
  rewrite bind_get.
  apply G; [|reflexivity].
  destruct (scan_requested s2); [|reflexivity].
  rewrite bind_modify. apply do_scan_returns.
Qed.

Lemma run_exits turns : forall s,
  Exists (fun t => CANCEL (fst t) = true) turns ->
  fst (run turns s) = Ok true.
Proof.
  induction turns as [|[pressed env] rest IH]; intros s H.
  - inversion H.
  - cbn [run]. unfold press. rewrite bind_modify.
    set (s1 := set_button_states _ s).
    destruct (CANCEL (button_states s1)) eqn:C.
    + unfold bind. now rewrite (run_iter_cancel env s1 C).
    + pose proof (run_iter_continue env s1 C) as R.
      unfold bind. destruct (run_iter env s1) as [[c|e] s2];
        cbn [fst] in R; [|discriminate].
      injection R as ->. apply IH.
      inversion H as [? ? Hc|? ? Hr]; subst; [|assumption].
      cbn [fst] in Hc. unfold s1 in C.
      cbn [button_states set_button_states CANCEL] in C.
      rewrite Hc, orb_true_r in C. discriminate.
Qed.

(** C7: teardown never raises, whatever the radio does; it tries to stop
    the scan whenever a radio handle exists; a pending CANCEL makes the
    loop body run the teardown and leave the loop, whatever the teardown
    met; and the loop returns as soon as CANCEL has been pressed. *)
Theorem cancel_always_exits (env : Env) (s : App) :
  fst (_cleanup_ble env s) = Ok tt /\
  (forall h, _ble s = Some h ->
     exists pre post,
       trace (snd (_cleanup_ble env s))
         = trace s ++ pre ++ Called StopScan (fails env StopScan) :: post) /\
  (CANCEL (button_states s) = true ->
     run_iter env s =
     (Ok Exit,
      log Minimised (snd (_cleanup_ble env (snd (clear_buttons s)))))) /\
  (forall turns,
     Exists (fun t => CANCEL (fst t) = true) turns ->
     fst (run turns s) = Ok true).
Proof.
  split; [apply cleanup_returns|].
  split; [apply cleanup_attempts_stop|].
  split; [apply run_iter_cancel|].
  intros turns. apply run_exits.
Qed.

Lemma cancel_always_exits_witness :
  fst (run_iter stuck_env
         (set_button_states cancel_pressed after_earlier_scan)) = Ok Exit /\
  fst (run [(up_pressed, failing_env); (cancel_pressed, stuck_env);
            (up_pressed, quiet_env)] __init__) = Ok true.
Proof.
  destruct (cancel_always_exits stuck_env
              (set_button_states cancel_pressed after_earlier_scan))
    as (_ & _ & H & _).
  destruct (cancel_always_exits stuck_env __init__) as (_ & _ & _ & R).
  split.
  - rewrite (H eq_refl). reflexivity.
  - apply (R [(up_pressed, failing_env); (cancel_pressed, stuck_env);
              (up_pressed, quiet_env)]).
    apply Exists_cons_tl, Exists_cons_hd. reflexivity.
Defined.

(** * Further properties of the code *)

(** ** The decoder *)

Lemma decode_loop_raises fuel adv : forall i e,
  decode_loop fuel adv i = Some (Raise e) -> kind e = UnicodeError.
Proof.
  induction fuel as [|f IH]; intros i e H; [discriminate|].
  cbn [decode_loop] in H.
  destruct (i + 1 <? len adv) eqn:G; [|discriminate].
  apply Nat.ltb_lt in G.
  destruct (index_in_range adv i) as [l Hl]; [lia|].
  destruct (index_in_range adv (i + 1)) as [t Ht]; [lia|].
  rewrite (index_some _ _ _ Hl), (index_some _ _ _ Ht) in H.
  destruct (Byte.to_nat l =? 0); [discriminate|].
  destruct (Byte.to_nat t =? 9); [|now apply (IH _ _ H)].
  unfold decode_utf8 in H. destruct (utf8_chars _); [discriminate|].
  injection H as <-. reflexivity.
Qed.

(** X1: the decoder never reads outside the buffer: whatever the bytes,
    the only error [_decode_name] can raise is the [UnicodeError] of the
    text decoding, never an [IndexError]. *)
Theorem decode_name_raises_only_unicode_error (adv : bytes) (e : exn) :
  _decode_name adv = Raise e -> kind e = UnicodeError.
Proof.
  unfold _decode_name. intros H.
  destruct (decode_loop (S (len adv)) adv 0) as [r|] eqn:E; [|discriminate].
  subst r. exact (decode_loop_raises _ _ _ _ E).
Qed.

Lemma decode_name_raises_only_unicode_error_witness :
  _decode_name [x03; x09; xc3] = Raise (Exn UnicodeError []) /\
  kind (Exn UnicodeError []) = UnicodeError.
Proof.
  split; [reflexivity|].
  apply (decode_name_raises_only_unicode_error [x03; x09; xc3]).
  reflexivity.
Defined.

(** X2: a name record that the end of the buffer cuts short is decoded
    from the bytes that are there: the result is the text of everything
    after its type byte, or the decoding error of those bytes. *)
Theorem decode_name_cut_short_record (adv : bytes) (i : nat) (l : byte) :
  reaches adv i ->
  nth_error adv i = Some l ->
  nth_error adv (i + 1) = Some x09 ->
  len adv < i + 1 + Byte.to_nat l ->
  _decode_name adv =
  match decode_utf8 (skipn (i + 2) adv) with
  | Ok s => Ok (Some s)
  | Raise e => Raise e
  end.
Proof.
  intros Hr Hl Ht Hcut.
  rewrite (decode_from_reaches _ _ Hr), decode_from_step.
  assert (G : i + 1 < len adv).
  { unfold len. apply nth_error_Some. congruence. }
  apply Nat.ltb_lt in G. rewrite G.
  rewrite (index_some _ _ _ Hl), (index_some _ _ _ Ht).
  apply Nat.ltb_lt in G.
  destruct (Byte.to_nat l =? 0) eqn:L0; [apply Nat.eqb_eq in L0; lia|].
  change (Byte.to_nat x09 =? 9) with true. cbv iota.
  unfold slice. rewrite firstn_all2; [reflexivity|].
  rewrite length_skipn. unfold len in *. lia.
Qed.

Lemma decode_name_cut_short_record_witness :
  _decode_name cut_short_payload = Ok (Some (lit "Ta")).
Proof.
  apply (decode_name_cut_short_record cut_short_payload 3 x08).
  - change 3 with (0 + 1 + Byte.to_nat x02).
    apply reaches_next with (t := x01).
    + apply reaches_start.
    + reflexivity.
    + reflexivity.
    + discriminate.
    + discriminate.
  - reflexivity.
  - reflexivity.
  - vm_compute. lia.
Defined.

(** ** The callback and the registry *)

Lemma or_default_not_empty x d : d <> [] -> or_default x d <> [].
Proof. intros Hd. destruct x as [[|c t]|]; cbn; congruence. Qed.

(** X3: a beacon is never stored with an empty name: the name is the
    decoded text when there is some, and ["?"] when the payload has no
    name record or an empty one. *)
Theorem irq_stored_name_not_empty
        (s : App) (addr_type : Z) (a : bytes) (adv_type r : Z) (adv : bytes) :
  let s' := snd (_irq (ScanResult addr_type a adv_type r adv) s) in
  beacons s' = beacons s \/
  exists nm,
    beacons s' =
      beacons s ++ [ {| name := nm; rssi := r; addr := format_addr a |} ] /\
    nm <> [] /\
    (forall c t, _decode_name adv = Ok (Some (c :: t)) -> nm = c :: t) /\
    (_decode_name adv = Ok None \/ _decode_name adv = Ok (Some []) ->
     nm = lit "?").
Proof.
  cbv zeta. rewrite irq_result_run. cbn [snd].
  destruct (_decode_name adv) as [decoded|e]; [|now left].
  rewrite upsert_run. cbn [snd].
  destruct (known _ _); [now left|right].
  exists (or_default decoded (lit "?")). split; [reflexivity|].
  split; [apply or_default_not_empty; discriminate|]. split.
  - intros c t H. injection H as ->. reflexivity.
  - intros [H|H]; injection H as ->; reflexivity.
Qed.

Lemma irq_known_after ev s x :
  known x (beacons (snd (_irq ev s))) =
  known x (beacons s) ||
  match ev with
  | ScanResult _ a _ _ adv =>
      match _decode_name adv with
      | Ok _ => str_eqb (format_addr a) x
      | Raise _ => false
      end
  | _ => false
  end.
Proof.
  destruct ev as [t a v r adv| |c]; try (cbn; now rewrite orb_false_r).
  rewrite irq_result_run. cbn [snd].
  destruct (_decode_name adv) as [d|e]; [|now rewrite orb_false_r].
  rewrite upsert_run. cbn [snd].
  destruct (known (format_addr a) (beacons s)) eqn:K.
  - destruct (str_eqb (format_addr a) x) eqn:E; [|now rewrite orb_false_r].
    apply str_eqb_eq in E. subst x. now rewrite K.
  - cbn [beacons set_beacons]. rewrite known_snoc. reflexivity.
Qed.

(** X4: once a discovery event has been handled without error its
    address is known to the registry, and the handling changes the
    answer for no other address; an event whose handling raises changes
    no answer at all. *)
Theorem irq_makes_address_known
        (s : App) (addr_type : Z) (a : bytes) (adv_type r : Z) (adv : bytes)
        (x : str) :
  known x (beacons (snd (_irq (ScanResult addr_type a adv_type r adv) s))) =
  match _decode_name adv with
  | Ok _ => known x (beacons s) || str_eqb (format_addr a) x
  | Raise _ => known x (beacons s)
  end.
Proof.
  rewrite irq_known_after.
  destruct (_decode_name adv); [reflexivity|apply orb_false_r].
Qed.

(** X5: handling the same event twice in a row leaves the state that
    handling it once leaves: a repeated advertisement or a repeated
    end-of-scan signal changes nothing. *)
Theorem irq_idempotent (ev : irq_event) (s : App) :
  snd (_irq ev (snd (_irq ev s))) = snd (_irq ev s).
Proof.
  destruct ev as [t a v r adv| |c]; [|reflexivity..].
  rewrite !irq_result_run. cbn [snd].
  destruct (_decode_name adv) as [d|e]; [|reflexivity].
  rewrite !upsert_run. cbn [snd].
  destruct (known (format_addr a) (beacons s)) eqn:K.
  - now rewrite K.
  - cbn [beacons set_beacons]. rewrite known_snoc. cbn [addr].
    rewrite str_eqb_refl, orb_true_r. reflexivity.
Qed.

Lemma irq_registry_step ev s :
  beacons (snd (_irq ev s)) = beacons s \/
  exists a r nm,
    In (format_addr a, r) (sightings_of [ev]) /\
    known (format_addr a) (beacons s) = false /\
    nm <> [] /\
    beacons (snd (_irq ev s)) =
      beacons s ++ [ {| name := nm; rssi := r; addr := format_addr a |} ].
Proof.
  destruct ev as [t a v r adv| |c]; [|now left..].
  rewrite irq_result_run. cbn [snd].
  destruct (_decode_name adv) as [d|e]; [|now left].
  rewrite upsert_run. cbn [snd].
  destruct (known _ _) eqn:K; [now left|right].
  exists a, r, (or_default d (lit "?")).
  split; [now left|]. split; [exact K|].
  split; [apply or_default_not_empty; discriminate|reflexivity].
Qed.

Lemma sightings_of_app evs1 evs2 :
  sightings_of (evs1 ++ evs2) = sightings_of evs1 ++ sightings_of evs2.
Proof.
  induction evs1 as [|ev evs1 IH]; [reflexivity|].
  destruct ev; cbn; now rewrite IH.
Qed.

Lemma deliver_registry evs : forall s,
  exists news,
    beacons (deliver evs s) = beacons s ++ news /\
    len news <= len (sightings_of evs) /\
    Forall (fun b => In (addr b, rssi b) (sightings_of evs) /\
                     name b <> [] /\
                     known (addr b) (beacons s) = false) news /\
    (NoDup (map addr (beacons s)) ->
     NoDup (map addr (beacons (deliver evs s)))).
Proof.
  induction evs as [|ev evs IH]; intros s.
  - exists []. cbn. rewrite app_nil_r. repeat split; auto.
  - cbn [deliver fold_left]. fold (deliver evs (snd (_irq ev s))).
    destruct (IH (snd (_irq ev s))) as (news & B & L & F & D).
    change (ev :: evs) with ([ev] ++ evs). rewrite sightings_of_app.
    destruct (irq_registry_step ev s)
      as [E|(a & r & nm & I & K & Hn & E)].
    + rewrite E in *. exists news. repeat split; try assumption.
      * unfold len in *. rewrite length_app. lia.
      * eapply Forall_impl; [|exact F]. cbv beta.
        intros b (I & Hn & K). repeat split; try assumption.
        apply in_or_app. now right.
    + rewrite E in *. exists ({| name := nm; rssi := r; addr := format_addr a |} :: news).
      repeat split.
      * rewrite B, <- app_assoc. reflexivity.
      * destruct ev; try contradiction. cbn [sightings_of app len List.length] in *.
        unfold len in *. lia.
      * constructor.
        -- cbn [addr rssi name]. repeat split; try assumption.
           apply in_or_app. now left.
        -- eapply Forall_impl; [|exact F]. cbv beta.
           intros b (I' & Hn' & K'). repeat split; try assumption.
           ++ apply in_or_app. now right.
           ++ rewrite known_snoc in K'. now apply orb_false_iff in K'.
      * intros N. apply D. rewrite map_app. cbn [map addr].
        apply NoDup_app; [assumption|repeat constructor; auto|].
        intros x Hx [<-|[]]. apply known_in in Hx. congruence.
Qed.

(** X6: the callback only ever appends to the registry: after any
    events the old entries are still there, in place and unchanged, at
    most one entry was added per discovery event, and every added entry
    carries the address and strength of one of those events and a name
    that is not empty. *)
Theorem deliver_only_appends (evs : list irq_event) (s : App) :
  exists news,
    beacons (deliver evs s) = beacons s ++ news /\
    len news <= len (filter is_result evs) /\
    Forall (fun b => In (addr b, rssi b) (sightings_of evs) /\
                     name b <> []) news.
Proof.
  destruct (deliver_registry evs s) as (news & B & L & F & _).
  exists news. split; [exact B|]. split.
  - replace (len (filter is_result evs)) with (len (sightings_of evs));
      [exact L|].
    unfold len. clear. induction evs as [|ev evs IH]; [reflexivity|].
    destruct ev; cbn; auto.
  - eapply Forall_impl; [|exact F]. cbv beta. tauto.
Qed.

(** X7: the callback keeps the addresses of the registry distinct: if
    no address occurs twice before some events are handled, none occurs
    twice afterwards. *)
Theorem deliver_keeps_addresses_distinct (evs : list irq_event) (s : App) :
  NoDup (map addr (beacons s)) ->
  NoDup (map addr (beacons (deliver evs s))).
Proof.
  destruct (deliver_registry evs s) as (news & _ & _ & _ & D). exact D.
Qed.

Lemma deliver_keeps_addresses_distinct_witness :
  NoDup (map addr (beacons (deliver (batches demo_env 0 4)
                                    after_earlier_scan))).
Proof.
  apply deliver_keeps_addresses_distinct.
  cbn. constructor; [intros []|constructor].
Defined.

(** X8: the address text identifies the raw address: two byte sequences
    have the same text exactly when they are the same, so the registry
    never merges two devices. *)
Theorem format_addr_injective (a b : bytes) :
  format_addr a = format_addr b <-> a = b.
Proof.
  split; [apply format_addr_inj|now intros ->].
Qed.

(** ** Frames *)

Lemma irq_frame ev s :
  button_states (snd (_irq ev s)) = button_states s /\
  status (snd (_irq ev s)) = status s /\
  scan_requested (snd (_irq ev s)) = scan_requested s /\
  _ble (snd (_irq ev s)) = _ble s /\
  radio_active (snd (_irq ev s)) = radio_active s.
Proof.
  destruct ev as [t a v r adv| |c]; [|repeat split..].
  rewrite irq_result_run. cbn [snd].
  destruct (_decode_name adv); [|repeat split].
  rewrite upsert_run. cbn [snd]. destruct (known _ _); repeat split.
Qed.

Lemma deliver_frame evs : forall s,
  button_states (deliver evs s) = button_states s /\
  status (deliver evs s) = status s /\
  scan_requested (deliver evs s) = scan_requested s /\
  _ble (deliver evs s) = _ble s /\
  radio_active (deliver evs s) = radio_active s.
Proof.
  induction evs as [|ev evs IH]; intros s; [repeat split|].
  cbn [deliver fold_left]. fold (deliver evs (snd (_irq ev s))).
  destruct (IH (snd (_irq ev s))) as (A & B & C & D & E).
  destruct (irq_frame ev s) as (A' & B' & C' & D' & E').
  repeat split; congruence.
Qed.

Lemma logs_frame es : forall s,
  button_states (logs es s) = button_states s /\
  status (logs es s) = status s /\
  scan_requested (logs es s) = scan_requested s /\
  _ble (logs es s) = _ble s /\
  radio_active (logs es s) = radio_active s.
Proof.
  induction es as [|e es IH]; intros s; [repeat split|].
  rewrite logs_cons. destruct (IH (log e s)) as (A & B & C & D & E).
  repeat split; assumption.
Qed.

Lemma wait_loop_frame env timeout k s :
  button_states (snd (wait_loop env timeout k s)) = button_states s /\
  status (snd (wait_loop env timeout k s)) = status s /\
  scan_requested (snd (wait_loop env timeout k s)) = scan_requested s /\
  _ble (snd (wait_loop env timeout k s)) = _ble s /\
  radio_active (snd (wait_loop env timeout k s)) = radio_active s.
Proof.
  destruct (wait_loop_spec env timeout k s) as (n & _ & W & _).
  rewrite W. cbn [snd].
  destruct (logs_frame (repeat (Slept 100) n) (deliver (batches env k n) s))
    as (A & B & C & D & E).
  destruct (deliver_frame (batches env k n) s) as (A' & B' & C' & D' & E').
  repeat split; congruence.
Qed.

(** ** The order of the calls of an attempt *)

Ltac trace_prefix :=
  fields; repeat apply trace_more; apply trace_none.

(** What is recorded about the state [s1] in which the [try] block
    stops before the wait loop - on a raise, or with the scan command
    accepted - and about the effects [P] that led there. *)
Definition attempt_facts (s s1 : App) (P : list effect) : Prop :=
  trace s1 = trace s ++ P /\
  order_ok None P = true /\
  forallb (fun e => negb (Nat.eqb 100 match e with Slept ms => ms | _ => 0 end)) P
    = true /\
  (radio_active s = true -> forallb (fun e => negb (is_activation e)) P = true) /\
  (_ble s <> None -> forallb (fun e => negb (is_creation e)) P = true) /\
  (_ble s <> None -> _ble s1 = _ble s) /\
  (existsb is_scan_command P = true -> radio_active s1 = true) /\
  (radio_active s = false -> existsb is_scan_command P = true ->
   existsb is_registered P && existsb is_activated P
   && existsb is_settle P = true) /\
  (radio_active s = true -> radio_active s1 = true) /\
  button_states s1 = button_states s /\
  scan_requested s1 = scan_requested s /\
  beacons s1 = beacons s /\
  scan_complete s1 = scan_complete s.

Ltac facts_leaf :=
  unfold attempt_facts;
  split; [trace_prefix|];
  split; [reflexivity|];
  split; [reflexivity|];
  split; [intros ?; first [reflexivity | congruence]|];
  split; [intros ?; first [reflexivity | congruence]|];
  split; [intros ?; fields; first [reflexivity | congruence]|];
  split; [intros ?; fields; first [reflexivity | assumption | discriminate]|];
  split; [intros ? Hcmd;
          first [reflexivity | congruence | (cbn in Hcmd; discriminate Hcmd)]|];
  split; [intros ?; fields; first [reflexivity | assumption]|];
  split; [reflexivity|];
  split; [reflexivity|];
  split; reflexivity.

Ltac raised_leaf :=
  intros E; apply pair_equal_spec in E as [<- <-]; left;
  do 4 eexists; split; [reflexivity|];
  split; [eassumption|];
  facts_leaf.

Ltac accepted_leaf :=
  unfold modify; intros E; apply pair_equal_spec in E as [<- <-]; right;
  match goal with
  | |- context [wait_loop _ 30 0 ?s1] => exists s1
  end;
  eexists; split; [reflexivity|];
  facts_leaf.

Ltac walk_call env c k s :=
  lazymatch goal with
  | F : fails env c = None |- _ => rewrite (bind_call_ok env c k s F)
  | _ =>
      let F := fresh "F" in
      destruct (fails env c) as [?m|] eqn:F;
      [ rewrite (bind_call_fail env c _ k s F); solve [raised_leaf]
      | rewrite (bind_call_ok env c k s F) ]
  end.

Ltac walk_step :=
  lazymatch goal with
  | |- bind (bind ?c ?k) ?h ?s = _ -> _ => rewrite (bind_assoc c k h s)
  | |- bind (ret ?a) ?k ?s = _ -> _ => rewrite (bind_ret a k s)
  | |- bind get ?k ?s = _ -> _ => rewrite (bind_get k s)
  | |- bind (modify ?f) ?k ?s = _ -> _ => rewrite (bind_modify f k s)
  | |- bind (wait_loop ?env ?t ?k0) ?k ?s = _ -> _ =>
      rewrite (bind_wait_loop env t k0 k s)
  | |- bind (call ?env ?c) ?k ?s = _ -> _ => walk_call env c k s
  | |- bind (match _ble _ with _ => _ end) _ _ = _ -> _ =>
      fields;
      lazymatch goal with
      | |- context [match _ble ?x with _ => _ end] => destruct (_ble x) eqn:?
      end
  | |- bind (if negb _ then _ else _) _ _ = _ -> _ =>
      fields;
      lazymatch goal with
      | |- context [if negb (radio_active ?x) then _ else _] =>
          destruct (radio_active x) eqn:?; cbn [negb]
      end
  end;
  cbv beta.

Lemma scan_body_outcomes env s :
  (exists c m s1 P,
      scan_body env s = (Raise (Exn ExternalError m), s1) /\
      fails env c = Some m /\
      attempt_facts s s1 P)
  \/
  (exists s1 P,
      scan_body env s =
        (Ok tt,
         set_status
           (lit "Found " ++
            format_d (len (beacons (snd (wait_loop env 30 0 s1)))))
           (snd (wait_loop env 30 0 s1))) /\
      attempt_facts s s1 P).
Proof.
  destruct (scan_body env s) as [r s'] eqn:E. revert E.
  unfold scan_body, query_active, sleep.
  do 4 walk_step; repeat walk_step; accepted_leaf.
Qed.

Lemma follows_ok_slept_100 prev : follows_ok prev (Slept 100) = true.
Proof. destruct prev as [[c [m|]|ms| | |]|]; reflexivity. Qed.

Lemma order_ok_sleeps n : forall prev,
  order_ok prev (repeat (Slept 100) n) = true.
Proof.
  induction n as [|n IH]; intros prev; [reflexivity|].
  cbn [repeat order_ok]. now rewrite follows_ok_slept_100, IH.
Qed.

Lemma order_ok_app P : forall prev Q,
  order_ok prev P = true ->
  (forall prev', order_ok prev' Q = true) ->
  order_ok prev (P ++ Q) = true.
Proof.
  induction P as [|e P IH]; intros prev Q HP HQ; [apply HQ|].
  cbn [app order_ok] in *. apply andb_true_iff in HP as [H1 H2].
  now rewrite H1, IH.
Qed.

Lemma order_ok_nth l : forall prev i e,
  order_ok prev l = true ->
  nth_error l i = Some e ->
  follows_ok (match i with O => prev | S j => nth_error l j end) e = true.
Proof.
  induction l as [|x l IH]; intros prev i e H Hi; [destruct i; discriminate|].
  cbn [order_ok] in H. apply andb_true_iff in H as [H1 H2].
  destruct i as [|i]; cbn [nth_error] in *.
  - injection Hi as <-. exact H1.
  - specialize (IH (Some x) i e H2 Hi).
    destruct i as [|i]; exact IH.
Qed.

Lemma forallb_app_sleeps (p : effect -> bool) P n :
  p (Slept 100) = true ->
  forallb p P = true ->
  forallb p (P ++ repeat (Slept 100) n) = true.
Proof.
  intros Hp HP. rewrite forallb_app, HP. cbn [andb].
  apply forallb_forall. intros e He. apply repeat_spec in He. now subst e.
Qed.


Lemma batches_sighting env x n : forall k,
  In x (sightings_of (batches env k n)) ->
  exists j, j < n /\ In x (sightings_of (polls env (k + j))).
Proof.
  induction n as [|n IH]; intros k H; [contradiction|].
  rewrite batches_S, sightings_of_app in H.
  apply in_app_or in H as [H|H].
  - exists 0. split; [lia|]. now rewrite Nat.add_0_r.
  - destruct (IH _ H) as (j & Hj & I). exists (S j). split; [lia|].
    now rewrite Nat.add_succ_r.
Qed.

(** What every scan attempt does, whatever the surroundings: the new
    effects are [P] followed by [n <= 30] suspensions of the wait loop;
    [s1] is the state in which the wait loop starts, or the attempt
    stops. *)
Lemma do_scan_shape env s :
  exists P n s1,
    n <= 30 /\
    trace (snd (_do_scan env s)) = trace s ++ P ++ repeat (Slept 100) n /\
    attempt_facts
      (set_scan_complete false
         (set_beacons [] (set_status (lit "Init...") s))) s1 P /\
    beacons (snd (_do_scan env s)) = beacons (deliver (batches env 0 n) s1) /\
    button_states (snd (_do_scan env s)) = button_states s /\
    scan_requested (snd (_do_scan env s)) = scan_requested s /\
    _ble (snd (_do_scan env s)) = _ble s1 /\
    radio_active (snd (_do_scan env s)) = radio_active s1 /\
    ((exists m, status (snd (_do_scan env s)) = lit "Err: " ++ firstn 15 m /\
                n = 0 /\ existsb is_failure P = true)
     \/ status (snd (_do_scan env s))
        = lit "Found " ++ format_d (len (beacons (snd (_do_scan env s))))).
Proof.
  rewrite do_scan_run.
  set (s0 := set_scan_complete false
               (set_beacons [] (set_status (lit "Init...") s))).
  destruct (scan_body_outcomes env s0)
    as [(c & m & s1 & P & E & F & Facts)|(s1 & P & E & Facts)];
    rewrite E; cbn [fst snd];
    pose proof Facts
      as (T & _ & _ & _ & _ & _ & _ & _ & _ & Bu & Rq & B & C).
  - exists P, 0, s1.
    cbn [repeat batches deliver fold_left map seq concat
         trace beacons status set_status button_states
         scan_requested _ble radio_active].
    rewrite app_nil_r.
    split; [lia|]. split; [exact T|]. split; [exact Facts|].
    split; [reflexivity|]. split; [exact Bu|]. split; [exact Rq|].
    split; [reflexivity|]. split; [reflexivity|].
    left. exists m. split; [reflexivity|]. split; [reflexivity|].
    destruct (scan_body_cases env s0)
      as [(pre & c' & m' & s1' & E' & _ & _ & T' & _)|(s1' & pre & E' & _)].
    + rewrite E in E'. injection E' as _ <-.
      rewrite T in T'. apply app_inv_head in T'. subst P.
      rewrite existsb_app. cbn. apply orb_true_r.
    + rewrite E in E'. discriminate.
  - destruct (wait_loop_spec env 30 0 s1) as (n & Hn & W & _).
    destruct (wait_loop_frame env 30 0 s1) as (A1 & A2 & A3 & A4 & A5).
    exists P, n, s1.
    cbn [trace beacons status set_status button_states scan_requested
         _ble radio_active].
    rewrite A1, A3, A4, A5.
    rewrite W. cbn [snd].
    rewrite logs_trace, logs_beacons, deliver_trace, T.
    split; [exact Hn|]. split; [now rewrite app_assoc|].
    split; [exact Facts|]. split; [reflexivity|].
    split; [exact Bu|]. split; [exact Rq|].
    split; [reflexivity|]. split; [reflexivity|].
    now right.
Qed.

(** ** The scan attempt, whatever the surroundings *)

(** X9: after a scan attempt the registry holds only devices seen during
    that attempt: every entry has the address and the strength of a
    discovery event delivered in one of the 30 possible suspensions of
    the wait loop, and a name that is not empty.  Nothing of an earlier
    registry survives. *)
Theorem do_scan_registry_is_fresh (env : Env) (s : App) (b : Beacon) :
  In b (beacons (snd (_do_scan env s))) ->
  name b <> [] /\
  exists k, k < 30 /\ In (addr b, rssi b) (sightings_of (polls env k)).
Proof.
  intros H.
  destruct (do_scan_shape env s)
    as (P & n & s1 & Hn & _ & Facts & B & _).
  destruct Facts as (_ & _ & _ & _ & _ & _ & _ & _ & _ & _ & _ & B1 & _).
  cbn [beacons set_scan_complete set_beacons] in B1.
  destruct (deliver_registry (batches env 0 n) s1) as (news & E & _ & F & _).
  rewrite B, E, B1 in H. cbn [app] in H.
  rewrite Forall_forall in F. destruct (F b H) as (I & Hname & _).
  split; [exact Hname|].
  destruct (batches_sighting env _ n 0 I) as (j & Hj & I').
  exists j. split; [lia|exact I'].
Qed.

Lemma do_scan_registry_is_fresh_witness :
  let b := {| name := lit "B"; rssi := (-50)%Z;
              addr := lit "01:ab:03:04:05:07" |} in
  name b <> [] /\
  exists k, k < 30 /\ In (addr b, rssi b) (sightings_of (polls demo_env k)).
Proof.
  cbv zeta.
  apply (do_scan_registry_is_fresh demo_env after_earlier_scan).
  vm_compute. right. left. reflexivity.
Defined.

(** X10: after a scan attempt no address occurs twice in the registry,
    whatever the registry held before and whatever the radio sent. *)
Theorem do_scan_registry_distinct (env : Env) (s : App) :
  NoDup (map addr (beacons (snd (_do_scan env s)))).
Proof.
  destruct (do_scan_shape env s)
    as (P & n & s1 & Hn & _ & Facts & B & _).
  destruct Facts as (_ & _ & _ & _ & _ & _ & _ & _ & _ & _ & _ & B1 & _).
  cbn [beacons set_scan_complete set_beacons] in B1.
  rewrite B.
  destruct (deliver_registry (batches env 0 n) s1) as (news & _ & _ & _ & D).
  apply D. rewrite B1. constructor.
Qed.

(** X11: a scan attempt never leaves a transient status behind: when it
    returns, the status is either "Found n" with n the size of the
    registry, or "Err: ..." with an empty registry; "Init..." and
    "Scanning..." are seen only while the attempt runs. *)
Theorem do_scan_final_status (env : Env) (s : App) :
  status (snd (_do_scan env s))
    = lit "Found " ++ format_d (len (beacons (snd (_do_scan env s))))
  \/
  (exists m, status (snd (_do_scan env s)) = lit "Err: " ++ firstn 15 m) /\
  beacons (snd (_do_scan env s)) = [].
Proof.
  destruct (do_scan_shape env s)
    as (P & n & s1 & Hn & _ & Facts & B & _ & _ & _ & _ & St).
  destruct Facts as (_ & _ & _ & _ & _ & _ & _ & _ & _ & _ & _ & B1 & _).
  destruct St as [(m & St & -> & _)|St]; [right|now left].
  split; [now exists m|]. rewrite B. exact B1.
Qed.

(** X12: the calls of a scan attempt come in a fixed order.  Among the
    effects the attempt adds, the handle is created only right after
    the import of the radio module, the callback is registered only
    right after the radio was found inactive, the radio is activated
    only right after the callback was registered, the 300 ms settle
    delay comes only right after an activation that returned, and the
    scan command comes only right after the settle delay or after the
    radio was found active. *)
Theorem do_scan_call_order (env : Env) (s : App) :
  exists T,
    trace (snd (_do_scan env s)) = trace s ++ T /\
    forall i e,
      nth_error T i = Some e ->
      follows_ok (before T i) e = true.
Proof.
  destruct (do_scan_shape env s)
    as (P & n & s1 & Hn & T & Facts & _).
  destruct Facts as (_ & O & _).
  exists (P ++ repeat (Slept 100) n). split; [exact T|].
  intros i e H.
  apply (order_ok_nth (P ++ repeat (Slept 100) n) None i e); [|exact H].
  apply order_ok_app; [exact O|]. intros prev. apply order_ok_sleeps.
Qed.

(** X13: a radio handle that exists is kept and not created again: the
    attempt makes no call to create one, and the handle afterwards is
    the one from before. *)
Theorem do_scan_keeps_handle (env : Env) (s : App) :
  _ble s <> None ->
  _ble (snd (_do_scan env s)) = _ble s /\
  exists T,
    trace (snd (_do_scan env s)) = trace s ++ T /\
    forall o, ~ In (Called NewBLE o) T.
Proof.
  intros H.
  destruct (do_scan_shape env s)
    as (P & n & s1 & Hn & T & Facts & _ & _ & _ & Hb & _).
  destruct Facts as (_ & _ & _ & _ & Cr & Keep & _).
  split; [rewrite Hb; exact (Keep H)|].
  exists (P ++ repeat (Slept 100) n). split; [exact T|].
  intros o I.
  assert (F : forallb (fun e => negb (is_creation e))
                (P ++ repeat (Slept 100) n) = true).
  { apply forallb_app_sleeps; [reflexivity|exact (Cr H)]. }
  rewrite forallb_forall in F. specialize (F _ I). discriminate.
Qed.

Lemma do_scan_keeps_handle_witness :
  _ble (snd (_do_scan failing_env after_teardown)) = _ble after_teardown /\
  exists T,
    trace (snd (_do_scan failing_env after_teardown))
      = trace after_teardown ++ T /\
    forall o, ~ In (Called NewBLE o) T.
Proof.
  apply (do_scan_keeps_handle failing_env after_teardown).
  discriminate.
Defined.

(** X14: when the radio is already active the attempt goes straight to
    the scan command: it registers no callback, activates nothing and
    waits no settle delay, and the radio is still active afterwards. *)
Theorem do_scan_active_radio_no_activation (env : Env) (s : App) :
  radio_active s = true ->
  radio_active (snd (_do_scan env s)) = true /\
  exists T,
    trace (snd (_do_scan env s)) = trace s ++ T /\
    forall e, In e T -> is_activation e = false.
Proof.
  intros H.
  destruct (do_scan_shape env s)
    as (P & n & s1 & Hn & T & Facts & _ & _ & _ & _ & Ha & _).
  destruct Facts as (_ & _ & _ & Act & _ & _ & _ & _ & Stay & _).
  split; [rewrite Ha; exact (Stay H)|].
  exists (P ++ repeat (Slept 100) n). split; [exact T|].
  intros e I.
  assert (F : forallb (fun e => negb (is_activation e))
                (P ++ repeat (Slept 100) n) = true).
  { apply forallb_app_sleeps; [reflexivity|exact (Act H)]. }
  rewrite forallb_forall in F. specialize (F _ I).
  now apply negb_true_iff in F.
Qed.

Lemma do_scan_active_radio_no_activation_witness :
  radio_active (snd (_do_scan demo_env after_earlier_scan)) = true /\
  exists T,
    trace (snd (_do_scan demo_env after_earlier_scan))
      = trace after_earlier_scan ++ T /\
    forall e, In e T -> is_activation e = false.
Proof.
  apply (do_scan_active_radio_no_activation demo_env after_earlier_scan).
  reflexivity.
Defined.


(** ** Teardown *)

Lemma cleanup_run env s :
  _ble s <> None ->
  _cleanup_ble env s =
  (Ok tt,
   match fails env StopScan with
   | Some m => log (Called StopScan (Some m)) s
   | None =>
       match fails env Deactivate with
       | Some m =>
           log (Called Deactivate (Some m)) (log (Called StopScan None) s)
       | None =>
           set_radio_active false
             (log (Called Deactivate None) (log (Called StopScan None) s))
       end
   end).
Proof.
  intros H. unfold _cleanup_ble. rewrite bind_get.
  destruct (_ble s); [|contradiction].
  unfold try_except, bind, call.
  destruct (fails env StopScan); [reflexivity|].
  destruct (fails env Deactivate); reflexivity.
Qed.

(** X16: teardown stops at its first failure.  With a radio handle, the
    radio is switched off only when both the stop and the deactivation
    return; when the stop raises, the deactivation is not even tried,
    and the radio stays as it was.  The handle, the registry and the
    status are never touched. *)
Theorem cleanup_stops_at_first_failure (env : Env) (s : App) :
  _ble s <> None ->
  radio_active (snd (_cleanup_ble env s)) =
    match fails env StopScan, fails env Deactivate with
    | None, None => false
    | _, _ => radio_active s
    end /\
  (fails env StopScan <> None ->
   trace (snd (_cleanup_ble env s))
     = trace s ++ [Called StopScan (fails env StopScan)]) /\
  _ble (snd (_cleanup_ble env s)) = _ble s /\
  beacons (snd (_cleanup_ble env s)) = beacons s /\
  status (snd (_cleanup_ble env s)) = status s.
Proof.
  intros H. rewrite (cleanup_run env s H). cbn [snd].
  destruct (fails env StopScan) as [m|].
  - repeat split.
  - destruct (fails env Deactivate) as [m|]; repeat split;
      intros N; now contradiction N.
Qed.

Lemma cleanup_stops_at_first_failure_witness :
  radio_active (snd (_cleanup_ble stuck_env after_earlier_scan)) = true /\
  trace (snd (_cleanup_ble stuck_env after_earlier_scan))
    = [Called StopScan (Some (lit "radio busy"))].
Proof.
  destruct (cleanup_stops_at_first_failure stuck_env after_earlier_scan)
    as (R & T & _).
  - discriminate.
  - split; [exact R|]. apply T. discriminate.
Defined.




(** ** The turns of the UI loop *)

Lemma do_scan_frame env s :
  button_states (snd (_do_scan env s)) = button_states s /\
  scan_requested (snd (_do_scan env s)) = scan_requested s.
Proof.
  destruct (do_scan_shape env s) as (P & n & s1 & _ & _ & _ & _ & A & B & _).
  now split.
Qed.

Lemma do_scan_value env s : _do_scan env s = (Ok tt, snd (_do_scan env s)).
Proof.
  pose proof (do_scan_returns env s) as R.
  destruct (_do_scan env s) as [r s']. cbn [fst snd] in *. now subst r.
Qed.

(** A turn that does not exit, step by step. *)
Lemma run_iter_continue_state env s :
  CANCEL (button_states s) = false ->
  run_iter env s =
  (Ok Continue, log Rendered (after_request env (after_down (after_up s)))).
Proof.
  intros H. unfold run_iter. rewrite bind_get, H, bind_get.
  unfold after_request, after_down, after_up, clear_buttons.
  destruct (UP (button_states s)) eqn:U.
  - rewrite bind_assoc, bind_modify, bind_modify, bind_get.
    cbn [button_states set_scan_requested log set_button_states DOWN snd modify].
    rewrite bind_ret, bind_get.
    cbn [scan_requested set_scan_requested].
    rewrite bind_assoc, bind_modify. unfold bind at 1.
    rewrite do_scan_value. reflexivity.
  - rewrite bind_ret, bind_get.
    destruct (DOWN (button_states s)) eqn:D.
    + rewrite bind_assoc, bind_modify, bind_assoc, bind_modify, bind_modify,
        bind_get.
      cbn [scan_requested set_status set_beacons log set_button_states snd
           modify].
      destruct (scan_requested s) eqn:R.
      * rewrite bind_assoc, bind_modify. unfold bind at 1.
        rewrite do_scan_value. reflexivity.
      * reflexivity.
    + rewrite bind_ret, bind_get.
      destruct (scan_requested s) eqn:R.
      * rewrite bind_assoc, bind_modify. unfold bind at 1.
        rewrite do_scan_value. reflexivity.
      * reflexivity.
Qed.

Lemma turn_leaves_nothing_pending (env : Env) (s : App) :
  CANCEL (button_states s) = false ->
  fst (run_iter env s) = Ok Continue /\
  button_states (snd (run_iter env s)) = no_buttons /\
  scan_requested (snd (run_iter env s)) = false.
Proof.
  intros H. rewrite (run_iter_continue_state env s H).
  cbn [fst snd button_states scan_requested log].
  split; [reflexivity|].
  unfold after_request, after_down, after_up, clear_buttons.
  destruct (button_states s) as [u d c] eqn:B. cbn [CANCEL UP DOWN] in *.
  subst c.
  destruct u.
  - cbn [button_states set_scan_requested log set_button_states DOWN snd
         modify scan_requested].
    destruct (do_scan_frame env
      (set_scan_requested false
         (set_scan_requested true
            (log ButtonsCleared (set_button_states no_buttons s)))))
      as (A1 & A2).
    unfold no_buttons in *. rewrite A1, A2. split; reflexivity.
  - rewrite B. cbn [DOWN]. destruct d.
    + cbn [scan_requested set_status set_beacons log set_button_states snd
           modify button_states].
      destruct (scan_requested s) eqn:R.
      * destruct (do_scan_frame env
          (set_scan_requested false
             (set_status (lit "Cleared")
                (set_beacons []
                   (log ButtonsCleared (set_button_states no_buttons s))))))
          as (A1 & A2).
        unfold no_buttons in *. rewrite A1, A2. split; reflexivity.
      * cbn [button_states scan_requested set_status set_beacons log
             set_button_states].
        split; [reflexivity|exact R].
    + destruct (scan_requested s) eqn:R.
      * destruct (do_scan_frame env (set_scan_requested false s))
          as (A1 & A2).
        rewrite A1, A2. split; [exact B|reflexivity].
      * split; [exact B|exact R].
Qed.

(** X18: every press is used up in the turn that sees it.  After a turn
    that does not exit no button is pending any more and no scan
    request is left over, whatever was pressed and whatever the scan
    met. *)
Theorem run_iter_consumes_presses (env : Env) (s : App) :
  CANCEL (button_states s) = false ->
  fst (run_iter env s) = Ok Continue /\
  button_states (snd (run_iter env s)) = no_buttons /\
  scan_requested (snd (run_iter env s)) = false.
Proof. apply turn_leaves_nothing_pending. Qed.

Lemma run_iter_consumes_presses_witness :
  fst (run_iter demo_env (set_button_states up_down_pressed __init__))
    = Ok Continue /\
  button_states
    (snd (run_iter demo_env (set_button_states up_down_pressed __init__)))
    = no_buttons /\
  scan_requested
    (snd (run_iter demo_env (set_button_states up_down_pressed __init__)))
    = false.
Proof.
  apply (run_iter_consumes_presses demo_env
           (set_button_states up_down_pressed __init__)).
  reflexivity.
Defined.

(** X19: the loop never raises, and it returns exactly when CANCEL is
    pressed: over any run of turns, whatever else is pressed and
    whatever the scans meet, it has returned at the end if and only if
    one of the turns had CANCEL pressed. *)
Theorem run_returns_iff_cancel (turns : list (Buttons * Env)) (s : App) :
  CANCEL (button_states s) = false ->
  fst (run turns s) = Ok (existsb (fun t => CANCEL (fst t)) turns).
Proof.
  revert s. induction turns as [|[pressed env] rest IH]; intros s H.
  - reflexivity.
  - cbn [run existsb fst]. unfold press. rewrite bind_modify.
    set (s1 := set_button_states _ s).
    assert (C : CANCEL (button_states s1) = CANCEL pressed).
    { unfold s1. cbn [button_states set_button_states CANCEL]. now rewrite H. }
    destruct (CANCEL pressed) eqn:Cp.
    + unfold bind. now rewrite (run_iter_cancel env s1 C).
    + destruct (turn_leaves_nothing_pending env s1 C) as (R & B & _).
      unfold bind. destruct (run_iter env s1) as [[c|e] s2];
        cbn [fst snd] in R, B; [|discriminate].
      injection R as ->. cbn [orb]. apply IH. now rewrite B.
Qed.

Lemma run_returns_iff_cancel_witness :
  fst (run [(up_pressed, demo_env); (down_pressed, quiet_env);
            (up_pressed, failing_env)] __init__) = Ok false /\
  fst (run [(up_pressed, failing_env); (cancel_pressed, stuck_env);
            (up_pressed, quiet_env)] __init__) = Ok true.
Proof.
  split.
  - apply (run_returns_iff_cancel
             [(up_pressed, demo_env); (down_pressed, quiet_env);
              (up_pressed, failing_env)] __init__).
    reflexivity.
  - apply (run_returns_iff_cancel
             [(up_pressed, failing_env); (cancel_pressed, stuck_env);
              (up_pressed, quiet_env)] __init__).
    reflexivity.
Defined.

Lemma do_scan_status_not_cleared env s :
  status (snd (_do_scan env s)) <> lit "Cleared".
Proof.
  destruct (do_scan_shape env s)
    as (P & n & s1 & _ & _ & _ & _ & _ & _ & _ & _ & St).
  destruct St as [(m & St & _)|St]; rewrite St; discriminate.
Qed.

(** X20: UP wins over DOWN.  When both are pending and CANCEL is not,
    the turn behaves exactly as if only UP had been pressed: the press
    of DOWN is discarded with the others, the scan runs, and the status
    is the one of the scan, never "Cleared". *)
Theorem run_iter_up_discards_down (env : Env) (s : App) :
  UP (button_states s) = true ->
  CANCEL (button_states s) = false ->
  run_iter env s = run_iter env (set_button_states up_pressed s) /\
  status (snd (run_iter env s)) <> lit "Cleared".
Proof.
  intros U C.
  rewrite (run_iter_continue_state env s C).
  rewrite (run_iter_continue_state env (set_button_states up_pressed s) eq_refl).
  unfold after_up. rewrite U.
  cbn [button_states set_button_states up_pressed UP].
  unfold clear_buttons, modify. cbn [snd].
  unfold after_down.
  cbn [button_states set_scan_requested log set_button_states DOWN].
  unfold after_request. cbn [scan_requested set_scan_requested].
  split; [reflexivity|].
  cbn [snd status log]. apply do_scan_status_not_cleared.
Qed.

Lemma run_iter_up_discards_down_witness :
  run_iter failing_env (set_button_states up_down_pressed after_teardown)
  = run_iter failing_env
      (set_button_states up_pressed
         (set_button_states up_down_pressed after_teardown)) /\
  status (snd (run_iter failing_env
                 (set_button_states up_down_pressed after_teardown)))
  <> lit "Cleared".
Proof.
  apply (run_iter_up_discards_down failing_env
           (set_button_states up_down_pressed after_teardown));
    reflexivity.
Defined.

(** X21: DOWN alone clears without touching the radio.  With DOWN
    pending, UP and CANCEL not, and no scan requested, the turn empties
    the registry, sets the status "Cleared", makes no call to the radio
    and never sleeps: it only clears the buttons and renders. *)
Theorem run_iter_down_clears (env : Env) (s : App) :
  DOWN (button_states s) = true ->
  UP (button_states s) = false ->
  CANCEL (button_states s) = false ->
  scan_requested s = false ->
  fst (run_iter env s) = Ok Continue /\
  beacons (snd (run_iter env s)) = [] /\
  status (snd (run_iter env s)) = lit "Cleared" /\
  trace (snd (run_iter env s)) = trace s ++ [ButtonsCleared; Rendered] /\
  _ble (snd (run_iter env s)) = _ble s /\
  radio_active (snd (run_iter env s)) = radio_active s /\
  scan_complete (snd (run_iter env s)) = scan_complete s.
Proof.
  intros D U C R.
  rewrite (run_iter_continue_state env s C).
  unfold after_up. rewrite U. unfold after_down. rewrite D.
  unfold after_request, clear_buttons, modify.
  cbn [snd scan_requested set_status set_beacons log set_button_states].
  rewrite R.
  cbn [fst snd beacons status trace _ble radio_active scan_complete
       set_status set_beacons log set_button_states].
  rewrite <- app_assoc. repeat split.
Qed.

Lemma run_iter_down_clears_witness :
  beacons (snd (run_iter stuck_env
                  (set_button_states down_pressed after_earlier_scan))) = [] /\
  status (snd (run_iter stuck_env
                 (set_button_states down_pressed after_earlier_scan)))
    = lit "Cleared".
Proof.
  destruct (run_iter_down_clears stuck_env
              (set_button_states down_pressed after_earlier_scan)
              eq_refl eq_refl eq_refl eq_refl) as (_ & B & St & _).
  split; [exact B|exact St].
Defined.

Lemma cleanup_shape env s :
  exists T,
    trace (snd (_cleanup_ble env s)) = trace s ++ T /\
    (forall e, In e T ->
       exists o, e = Called StopScan o \/ e = Called Deactivate o) /\
    beacons (snd (_cleanup_ble env s)) = beacons s /\
    status (snd (_cleanup_ble env s)) = status s /\
    scan_requested (snd (_cleanup_ble env s)) = scan_requested s /\
    scan_complete (snd (_cleanup_ble env s)) = scan_complete s.
Proof.
  destruct (_ble s) as [h|] eqn:H.
  - rewrite (cleanup_run env s) by congruence. cbn [snd].
    destruct (fails env StopScan) as [m|].
    + exists [Called StopScan (Some m)]. repeat split.
      intros e [<-|[]]. eauto.
    + destruct (fails env Deactivate) as [m|].
      * exists [Called StopScan None; Called Deactivate (Some m)].
        cbn [trace log]. rewrite <- app_assoc. repeat split.
        intros e [<-|[<-|[]]]; eauto.
      * exists [Called StopScan None; Called Deactivate None].
        cbn [trace log set_radio_active]. rewrite <- app_assoc.
        repeat split. intros e [<-|[<-|[]]]; eauto.
  - unfold _cleanup_ble. rewrite bind_get, H. exists [].
    cbn [snd ret]. rewrite app_nil_r. repeat split. intros e [].
Qed.

(** X22: CANCEL wins over everything.  With CANCEL pending the turn
    starts no scan even when UP is pending too, and it leaves the
    registry and the status alone even when DOWN is pending: between
    clearing the buttons and minimising, the only calls it makes are
    the two of the teardown. *)
Theorem run_iter_cancel_only_tears_down (env : Env) (s : App) :
  CANCEL (button_states s) = true ->
  fst (run_iter env s) = Ok Exit /\
  beacons (snd (run_iter env s)) = beacons s /\
  status (snd (run_iter env s)) = status s /\
  scan_complete (snd (run_iter env s)) = scan_complete s /\
  exists T,
    trace (snd (run_iter env s))
      = trace s ++ [ButtonsCleared] ++ T ++ [Minimised] /\
    forall e, In e T ->
      exists o, e = Called StopScan o \/ e = Called Deactivate o.
Proof.
  intros C. rewrite (run_iter_cancel env s C).
  cbn [fst snd beacons status scan_complete trace log].
  destruct (cleanup_shape env (snd (clear_buttons s)))
    as (T & Tr & Only & B & St & _ & Sc).
  rewrite B, St, Sc, Tr.
  split; [reflexivity|]. split; [reflexivity|]. split; [reflexivity|].
  split; [reflexivity|].
  exists T. split; [|exact Only].
  unfold clear_buttons, modify. cbn [snd trace log set_button_states].
  now rewrite <- !app_assoc.
Qed.

Lemma run_iter_cancel_only_tears_down_witness :
  beacons (snd (run_iter demo_env
     (set_button_states {| UP := true; DOWN := true; CANCEL := true |}
        after_earlier_scan)))
  = beacons after_earlier_scan /\
  status (snd (run_iter demo_env
     (set_button_states {| UP := true; DOWN := true; CANCEL := true |}
        after_earlier_scan)))
  = status after_earlier_scan.
Proof.
  destruct (run_iter_cancel_only_tears_down demo_env
     (set_button_states {| UP := true; DOWN := true; CANCEL := true |}
        after_earlier_scan) eq_refl) as (_ & B & St & _).
  split; [exact B|exact St].
Defined.

(** ** The display *)

Lemma placed_texts_rows bs : forall y rest,
  placed_texts (draw_rows bs y ++ rest) = rows_at bs y ++ placed_texts rest.
Proof.
  induction bs as [|b bs IH]; intros y rest; [reflexivity|].
  cbn [draw_rows app placed_texts rows_at]. now rewrite IH.
Qed.

Lemma draw_texts s :
  placed_texts (draw s) =
  (0%Z, (-100)%Z, lit "EMFight") :: (0%Z, (-75)%Z, status s)
  :: rows_at (firstn 5 (beacons s)) (-45)
  ++ [(0%Z, 90%Z, lit "A:Scan D:Clear F:Exit")].
Proof.
  unfold draw. cbn [app placed_texts]. now rewrite placed_texts_rows.
Qed.

Lemma rows_at_nth bs : forall y k b,
  nth_error bs k = Some b ->
  nth_error (rows_at bs y) k
  = Some (0%Z, (y + 20 * Z.of_nat k)%Z, row_text b).
Proof.
  induction bs as [|x bs IH]; intros y k b H; [destruct k; discriminate|].
  destruct k as [|k]; cbn [nth_error rows_at] in *.
  - injection H as ->. do 3 f_equal. lia.
  - rewrite (IH _ _ _ H). do 3 f_equal. lia.
Qed.

Lemma rows_at_length bs : forall y, len (rows_at bs y) = len bs.
Proof.
  unfold len. induction bs as [|b bs IH]; intros y; [reflexivity|].
  cbn [rows_at List.length]. now rewrite IH.
Qed.

(** X23: the display shows the first five beacons in the order of
    discovery, one row each: row [k] (counting from 0) stands 20 units
    below the one before, starting at height -45, and reads the first
    eight characters of the name, a space and the signal strength. *)
Theorem draw_shows_first_five (s : App) (k : nat) (b : Beacon) :
  k < 5 ->
  nth_error (beacons s) k = Some b ->
  nth_error (placed_texts (draw s)) (2 + k)
  = Some (0%Z, (-45 + 20 * Z.of_nat k)%Z,
          firstn 8 (name b) ++ lit " " ++ format_int (rssi b)).
Proof.
  intros Hk Hb. rewrite draw_texts. cbn [Nat.add nth_error].
  assert (Hf : nth_error (firstn 5 (beacons s)) k = Some b).
  { rewrite nth_error_firstn. apply Nat.ltb_lt in Hk. now rewrite Hk. }
  rewrite nth_error_app1.
  - exact (rows_at_nth _ _ _ _ Hf).
  - fold (len (rows_at (firstn 5 (beacons s)) (-45))).
    rewrite rows_at_length. unfold len. apply nth_error_Some. congruence.
Qed.

Lemma draw_shows_first_five_witness :
  nth_error (placed_texts (draw (set_beacons seven_beacons __init__))) (2 + 4)
  = Some (0%Z, 35%Z, lit "Thermome -44").
Proof.
  refine (draw_shows_first_five (set_beacons seven_beacons __init__) 4
            (nth 4 seven_beacons {| name := []; rssi := 0; addr := [] |})
            _ _).
  - lia.
  - reflexivity.
Defined.

(** X24: the display never holds more than five rows and its lines do
    not collide: it places the title, the status, one row for each of
    the first five beacons at most, and the key legend, all at
    horizontal position 0 and at strictly increasing heights, the
    legend last at height 90. *)
Theorem draw_layout (s : App) :
  len (placed_texts (draw s)) = 3 + Nat.min 5 (len (beacons s)) /\
  StronglySorted Z.lt (map height (placed_texts (draw s))) /\
  Forall (fun p => fst (fst p) = 0%Z) (placed_texts (draw s)) /\
  nth_error (placed_texts (draw s)) (2 + Nat.min 5 (len (beacons s)))
  = Some (0%Z, 90%Z, lit "A:Scan D:Clear F:Exit").
Proof.
  rewrite draw_texts.
  pose proof (length_firstn 5 (beacons s)) as L.
  fold (len (beacons s)) in L. rewrite <- L.
  generalize dependent (firstn 5 (beacons s)). intros bs L.
  assert (Hl : List.length bs <= 5) by lia. clear L.
  do 6 (destruct bs as [|? bs];
        [ cbn [rows_at app map height fst snd len List.length Nat.add
               nth_error];
          split; [reflexivity|];
          split; [repeat constructor; lia|];
          split; [repeat constructor|reflexivity]
        | ]).
  cbn [List.length] in Hl. lia.
Qed.
